(** * Boot stage record library: bootrecord.c / bootrecord.h

    A shallow embedding of [boot_record_init] and [boot_record_log_profile]
    over a byte-addressed memory, the static [gboot_records_config] and the
    platform clock [boot_record_get_timestamp], followed by the properties
    of the record store. *)

From Stdlib Require Import ZArith List Bool String Ascii Lia.
Import ListNotations.

Local Open Scope Z_scope.

(* ========================================================================== *)
(** * Machine integers                                                         *)
(* ========================================================================== *)

(** [uint32_t] and [uint64_t] values are integers with the wrap-around of
    the C unsigned types written out. *)
Definition wrap32 (v : Z) : Z := v mod 2 ^ 32.
Definition wrap64 (v : Z) : Z := v mod 2 ^ 64.

Definition u32 (v : Z) : Prop := 0 <= v < 2 ^ 32.
Definition u64 (v : Z) : Prop := 0 <= v < 2 ^ 64.

(** [size_t] arithmetic: [sizeof] yields a [size_t], so [size - sizeof(...)]
    is computed in that type.  The targets of the library are 32-bit
    cores. *)
Definition wrap_size_t (v : Z) : Z := v mod 2 ^ 32.

(* ========================================================================== *)
(** * Status codes (bootrecord.h)                                              *)
(* ========================================================================== *)

Inductive boot_record_status_t : Type :=
| BOOT_RECORD_SUCCESS
| BOOT_RECORD_ERR_INVALID_PARAMS
| BOOT_RECORD_ERR_INSUFFICIENT_MEM
| BOOT_RECORD_ERR_OVERFLOW.

(** The [int32_t] value of each status macro. *)
Definition status_code (s : boot_record_status_t) : Z :=
  match s with
  | BOOT_RECORD_SUCCESS => 0
  | BOOT_RECORD_ERR_INVALID_PARAMS => -1
  | BOOT_RECORD_ERR_INSUFFICIENT_MEM => -2
  | BOOT_RECORD_ERR_OVERFLOW => -3
  end.

(* ========================================================================== *)
(** * Byte-addressed memory                                                    *)
(* ========================================================================== *)

(** An address is an integer, [0] is the null pointer; a cell holds one
    byte.  Stores only ever write values in [0, 256); loads reduce each cell
    modulo 256, so every function is a memory. *)
Definition memory : Type := Z -> Z.

Definition NULL : Z := 0.

Definition store8 (m : memory) (a : Z) (b : Z) : memory :=
  fun x => if x =? a then b mod 256 else m x.

(** [memset(p, c, n)]: the [n] bytes from [p] on are set to [c]. *)
Definition memset (m : memory) (p : Z) (c : Z) (n : Z) : memory :=
  fun x => if (p <=? x) && (x <? p + n) then c mod 256 else m x.

Fixpoint write_bytes (m : memory) (a : Z) (bs : list Z) : memory :=
  match bs with
  | [] => m
  | b :: rest => write_bytes (store8 m a b) (a + 1) rest
  end.

Fixpoint read_bytes (m : memory) (a : Z) (n : nat) : list Z :=
  match n with
  | O => []
  | S k => m a mod 256 :: read_bytes m (a + 1) k
  end.

(** Little-endian encoding of the low [n] bytes of [v]. *)
Fixpoint le_bytes (n : nat) (v : Z) : list Z :=
  match n with
  | O => []
  | S k => v mod 256 :: le_bytes k (v / 256)
  end.

Fixpoint le_value (bs : list Z) : Z :=
  match bs with
  | [] => 0
  | b :: rest => b mod 256 + 256 * le_value rest
  end.

Definition store32 (m : memory) (a : Z) (v : Z) : memory :=
  write_bytes m a (le_bytes 4 v).
Definition store64 (m : memory) (a : Z) (v : Z) : memory :=
  write_bytes m a (le_bytes 8 v).
Definition load32 (m : memory) (a : Z) : Z := le_value (read_bytes m a 4).
Definition load64 (m : memory) (a : Z) : Z := le_value (read_bytes m a 8).

(* ========================================================================== *)
(** * C strings                                                                *)
(* ========================================================================== *)

Definition char_code (c : ascii) : Z := Z.of_N (N_of_ascii c).

(** The bytes found at a [const char *]: the characters of the string, the
    terminating NUL being implicit at the end of the list. *)
Definition chars_of (s : string) : list Z :=
  List.map char_code (list_ascii_of_string s).

(** [strncpy(dst, src, n)] as the [n] bytes it writes to [dst]: the
    characters of [src] up to its terminator or up to [n] of them, the rest
    of the [n] bytes filled with NUL. *)
Fixpoint strncpy (src : list Z) (n : nat) {struct n} : list Z :=
  match n with
  | O => []
  | S k =>
      match src with
      | [] => repeat 0 n
      | c :: src' => if c =? 0 then repeat 0 n else c :: strncpy src' k
      end
  end.

(** The characters of a C string: those before the first NUL. *)
Fixpoint c_string (src : list Z) : list Z :=
  match src with
  | [] => []
  | c :: src' => if c =? 0 then [] else c :: c_string src'
  end.

(* ========================================================================== *)
(** * Data structures (bootrecord.h)                                           *)
(* ========================================================================== *)

(** [boot_record_profile_t]: [char name[24]] at offset 0, [uint64_t time] at
    offset 24. *)
Definition name_size : Z := 24.
Definition sizeof_boot_record_profile_t : Z := 32.
Definition offset_name : Z := 0.
Definition offset_time : Z := 24.

(** [boot_stage_record_t]: [record_id] at 0, [record_count] at 4,
    [start_time] at 8, the zero-length array [profiles] at 16. *)
Definition sizeof_boot_stage_record_t : Z := 16.
Definition offset_record_id : Z := 0.
Definition offset_record_count : Z := 4.
Definition offset_start_time : Z := 8.
Definition offset_profiles : Z := 16.

(** [&stage->profiles[i]] *)
Definition profile_addr (stage : Z) (i : Z) : Z :=
  stage + offset_profiles + sizeof_boot_record_profile_t * i.

(** [boot_records_t], the administrative view over the caller's buffer. *)
Record boot_records_t : Type := mk_boot_records {
  memory_base : Z;
  memory_size : Z;
  possible_records : Z;
  records : Z
}.

(** The whole state the two functions act on: the static
    [gboot_records_config], the memory, and the platform clock, given as the
    sequence of the values it returns and the number of reads made so far. *)
Record machine : Type := mk_machine {
  gboot_records_config : boot_records_t;
  mem : memory;
  clock : nat -> Z;
  ticks : nat
}.

(** A [static] object is zero-initialised. *)
Definition zero_config : boot_records_t :=
  {| memory_base := NULL; memory_size := 0; possible_records := 0;
     records := NULL |}.

Definition power_on (m : memory) (clk : nat -> Z) : machine :=
  {| gboot_records_config := zero_config; mem := m; clock := clk;
     ticks := O |}.

(** The value the next read of the clock returns. *)
Definition clock_now (st : machine) : Z := wrap64 (clock st (ticks st)).

(** [boot_record_get_timestamp()], the platform's weak function. *)
Definition boot_record_get_timestamp (st : machine) : Z * machine :=
  (clock_now st,
   {| gboot_records_config := gboot_records_config st; mem := mem st;
      clock := clock st; ticks := S (ticks st) |}).

Definition set_mem (st : machine) (m : memory) : machine :=
  {| gboot_records_config := gboot_records_config st; mem := m;
     clock := clock st; ticks := ticks st |}.

Definition set_config (st : machine) (c : boot_records_t) : machine :=
  {| gboot_records_config := c; mem := mem st;
     clock := clock st; ticks := ticks st |}.

(** Assignments to the fields of [gboot_records_config]. *)
Definition set_memory_base (c : boot_records_t) (v : Z) : boot_records_t :=
  {| memory_base := v; memory_size := memory_size c;
     possible_records := possible_records c; records := records c |}.

Definition set_memory_size (c : boot_records_t) (v : Z) : boot_records_t :=
  {| memory_base := memory_base c; memory_size := v;
     possible_records := possible_records c; records := records c |}.

Definition set_possible_records (c : boot_records_t) (v : Z)
  : boot_records_t :=
  {| memory_base := memory_base c; memory_size := memory_size c;
     possible_records := v; records := records c |}.

Definition set_records (c : boot_records_t) (v : Z) : boot_records_t :=
  {| memory_base := memory_base c; memory_size := memory_size c;
     possible_records := possible_records c; records := v |}.

(* ========================================================================== *)
(** * Function definitions (bootrecord.c)                                      *)
(* ========================================================================== *)

(** [boot_record_init(stage_id, memory_addr, size)] *)
Definition boot_record_init (stage_id memory_addr size : Z) (st : machine)
  : boot_record_status_t * machine :=
  if (memory_addr =? NULL)
     || (size <? sizeof_boot_stage_record_t + sizeof_boot_record_profile_t)
  then (BOOT_RECORD_ERR_INVALID_PARAMS, st)
  else
    (* Clear the memory area *)
    let st := set_mem st (memset (mem st) memory_addr 0 size) in
    let st := set_config st zero_config in
    (* Initialize the main boot records structure *)
    let st := set_config st
                (set_memory_base (gboot_records_config st) memory_addr) in
    let st := set_config st
                (set_memory_size (gboot_records_config st) size) in
    let st := set_config st
                (set_records (gboot_records_config st) memory_addr) in
    (* Calculate number of profile records that can fit *)
    let st := set_config st
                (set_possible_records (gboot_records_config st)
                   (wrap32
                      (wrap_size_t (size - sizeof_boot_stage_record_t)
                       / sizeof_boot_record_profile_t))) in
    if possible_records (gboot_records_config st) =? 0
    then (BOOT_RECORD_ERR_INSUFFICIENT_MEM, st)
    else
      (* Initialize the boot stage record *)
      let stage := records (gboot_records_config st) in
      let st := set_mem st (store32 (mem st) (stage + offset_record_id)
                              stage_id) in
      let st := set_mem st (store32 (mem st) (stage + offset_record_count)
                              0) in
      let '(now, st) := boot_record_get_timestamp st in
      let st := set_mem st (store64 (mem st) (stage + offset_start_time)
                              now) in
      (BOOT_RECORD_SUCCESS, st).

(** [boot_record_log_profile(name)]; [None] is the null pointer. *)
Definition boot_record_log_profile (name : option string) (st : machine)
  : boot_record_status_t * machine :=
  match name with
  | None => (BOOT_RECORD_ERR_INVALID_PARAMS, st)
  | Some name =>
      (* Check if boot record is initialized *)
      if (records (gboot_records_config st) =? NULL)
         || (memory_base (gboot_records_config st) =? NULL)
      then (BOOT_RECORD_ERR_INVALID_PARAMS, st)
      else
        let stage := records (gboot_records_config st) in
        let record_count := load32 (mem st) (stage + offset_record_count) in
        (* Check if we've reached the maximum number of profiles *)
        if possible_records (gboot_records_config st) <=? record_count
        then (BOOT_RECORD_ERR_OVERFLOW, st)
        else
          (* Get pointer to the next available profile record *)
          let profile := profile_addr stage record_count in
          (* Copy profile name with length limit *)
          let st := set_mem st
                      (write_bytes (mem st) (profile + offset_name)
                         (strncpy (chars_of name)
                            (Z.to_nat (name_size - 1)))) in
          let st := set_mem st
                      (store8 (mem st)
                         (profile + offset_name + (name_size - 1)) 0) in
          (* Store the current time *)
          let '(now, st) := boot_record_get_timestamp st in
          let st := set_mem st (store64 (mem st) (profile + offset_time)
                                  now) in
          (* Increment profile record counter *)
          let st := set_mem st
                      (store32 (mem st) (stage + offset_record_count)
                         (wrap32 (record_count + 1))) in
          (BOOT_RECORD_SUCCESS, st)
  end.

(* ========================================================================== *)
(** * Observations on a machine                                                *)
(* ========================================================================== *)

(** The store is Active when a buffer is bound, the test
    [boot_record_log_profile] makes. *)
Definition active (st : machine) : Prop :=
  records (gboot_records_config st) <> NULL /\
  memory_base (gboot_records_config st) <> NULL.

Definition uninitialized (st : machine) : Prop :=
  records (gboot_records_config st) = NULL \/
  memory_base (gboot_records_config st) = NULL.

Definition stage_addr (st : machine) : Z := records (gboot_records_config st).

Definition record_id (st : machine) : Z :=
  load32 (mem st) (stage_addr st + offset_record_id).
Definition record_count (st : machine) : Z :=
  load32 (mem st) (stage_addr st + offset_record_count).
Definition start_time (st : machine) : Z :=
  load64 (mem st) (stage_addr st + offset_start_time).

Definition capacity (st : machine) : Z :=
  possible_records (gboot_records_config st).

(** Entry [i] as a downstream reader parses it from the buffer. *)
Definition entry_name (st : machine) (i : Z) : list Z :=
  read_bytes (mem st) (profile_addr (stage_addr st) i + offset_name) 24.
Definition entry_time (st : machine) (i : Z) : Z :=
  load64 (mem st) (profile_addr (stage_addr st) i + offset_time).

(** The label as it is stored: cut at 23 characters. *)
Definition truncated (name : string) : list Z :=
  firstn 23 (c_string (chars_of name)).

(** The 24 bytes of the [name] field after a label was logged. *)
Definition name_field (name : string) : list Z :=
  truncated name ++ repeat 0 (24 - List.length (truncated name)).

(** The invariant of the store: the capacity is a [uint32_t], and while a
    buffer is bound the count in its header does not exceed the capacity. *)
Definition store_inv (st : machine) : Prop :=
  u32 (capacity st) /\ (active st -> record_count st <= capacity st).

(** Calls of the API, and the run of a sequence of calls. *)
Inductive call : Type :=
| Init (stage_id memory_addr size : Z)
| Log (name : option string).

Definition do_call (c : call) (st : machine)
  : boot_record_status_t * machine :=
  match c with
  | Init stage_id memory_addr size =>
      boot_record_init stage_id memory_addr size st
  | Log name => boot_record_log_profile name st
  end.

Fixpoint run (cs : list call) (st : machine) : machine :=
  match cs with
  | [] => st
  | c :: rest => run rest (snd (do_call c st))
  end.

(** The statuses a sequence of calls returns, in call order. *)
Fixpoint statuses (cs : list call) (st : machine)
  : list boot_record_status_t :=
  match cs with
  | [] => []
  | c :: rest => fst (do_call c st) :: statuses rest (snd (do_call c st))
  end.

Definition log_calls (names : list string) : list call :=
  List.map (fun name => Log (Some name)) names.

(** No call to [boot_record_init] in the sequence returns success. *)
Fixpoint no_init_succeeds (cs : list call) (st : machine) : Prop :=
  match cs with
  | [] => True
  | c :: rest =>
      match c with
      | Init _ _ _ => fst (do_call c st) <> BOOT_RECORD_SUCCESS
      | Log _ => True
      end /\ no_init_succeeds rest (snd (do_call c st))
  end.

(** The arguments of a call fit their C types. *)
Definition wf_call (c : call) : Prop :=
  match c with
  | Init stage_id _ size => u32 stage_id /\ u32 size
  | Log _ => True
  end.

(** A memory and a clock to run the functions on. *)
Definition blank : memory := fun _ => 255.
Definition stopped_clock : nat -> Z := fun n => 1000 + Z.of_nat n.

(** A clock that counts up to a bound and stays there. *)
Definition capped_clock : nat -> Z :=
  fun n => Z.min (1000 + Z.of_nat n) 5000.

(* ========================================================================== *)
(** * A recorder over lists, to compare the buffer with                        *)
(* ========================================================================== *)

Definition is_success (s : boot_record_status_t) : bool :=
  match s with
  | BOOT_RECORD_SUCCESS => true
  | _ => false
  end.

(** The number of calls of a sequence that return success. *)
Definition successes (cs : list call) (st : machine) : nat :=
  List.length (List.filter is_success (statuses cs st)).

(** [x] lies outside the [n] bytes from [p] on. *)
Definition outside (x p n : Z) : Prop := x < p \/ p + n <= x.

(** The bound buffer holds the header and [possible_records] slots. *)
Definition layout_inv (st : machine) : Prop :=
  active st ->
  records (gboot_records_config st) = memory_base (gboot_records_config st)
  /\ sizeof_boot_stage_record_t
     + sizeof_boot_record_profile_t * capacity st
     <= memory_size (gboot_records_config st).

(** Address [x] is not part of the bound buffer. *)
Definition untouched (st : machine) (x : Z) : Prop :=
  active st ->
  outside x (memory_base (gboot_records_config st))
    (memory_size (gboot_records_config st)).

(** The clock never runs backwards and returns [uint64_t] values. *)
Definition monotone_clock (clk : nat -> Z) : Prop :=
  (forall n, u64 (clk n)) /\ (forall n k, (n <= k)%nat -> clk n <= clk k).

(** The recording session as a value: identifier, start time, capacity and
    the labels logged so far with their times, oldest first. *)
Record recorder : Type := mk_recorder {
  rec_id : Z;
  rec_start : Z;
  rec_capacity : Z;
  rec_entries : list (string * Z)
}.

(** One call on the list recorder; [now] is the clock reading the call
    would take.  [None] is the recorder before any initialisation. *)
Definition abs_call (c : call) (now : Z) (a : option recorder)
  : boot_record_status_t * option recorder :=
  match c with
  | Init stage_id memory_addr size =>
      if (memory_addr =? NULL) || (size <? 48)
      then (BOOT_RECORD_ERR_INVALID_PARAMS, a)
      else (BOOT_RECORD_SUCCESS,
            Some {| rec_id := stage_id; rec_start := now;
                    rec_capacity := (size - 16) / 32;
                    rec_entries := [] |})
  | Log None => (BOOT_RECORD_ERR_INVALID_PARAMS, a)
  | Log (Some name) =>
      match a with
      | None => (BOOT_RECORD_ERR_INVALID_PARAMS, a)
      | Some r =>
          if rec_capacity r <=? Z.of_nat (List.length (rec_entries r))
          then (BOOT_RECORD_ERR_OVERFLOW, a)
          else (BOOT_RECORD_SUCCESS,
                Some {| rec_id := rec_id r; rec_start := rec_start r;
                        rec_capacity := rec_capacity r;
                        rec_entries := rec_entries r ++ [(name, now)] |})
      end
  end.

(** A sequence of calls on the list recorder; the clock is read once by
    each successful call. *)
Fixpoint abs_run (cs : list call) (clk : nat -> Z) (n : nat)
  (a : option recorder) : list boot_record_status_t * option recorder :=
  match cs with
  | [] => ([], a)
  | c :: rest =>
      let r := abs_call c (wrap64 (clk n)) a in
      let n' := if is_success (fst r) then S n else n in
      let rs := abs_run rest clk n' (snd r) in
      (fst r :: fst rs, snd rs)
  end.

(** What a reader of the buffer finds, against the list recorder. *)
Definition represents (st : machine) (a : option recorder) : Prop :=
  match a with
  | None => uninitialized st
  | Some r =>
      active st
      /\ capacity st = rec_capacity r
      /\ u32 (rec_capacity r)
      /\ record_id st = rec_id r
      /\ start_time st = rec_start r
      /\ record_count st = Z.of_nat (List.length (rec_entries r))
      /\ Z.of_nat (List.length (rec_entries r)) <= rec_capacity r
      /\ (forall i name t,
            nth_error (rec_entries r) i = Some (name, t) ->
            entry_name st (Z.of_nat i) = name_field name /\
            entry_time st (Z.of_nat i) = t)
  end.

(* ========================================================================== *)
(** * Memory lemmas                                                            *)
(* ========================================================================== *)

Section Memory.

Lemma store8_same (m : memory) (a b : Z) : store8 m a b a = b mod 256.
Proof. unfold store8. now rewrite Z.eqb_refl. Qed.

Lemma store8_other (m : memory) (a b x : Z) :
  x <> a -> store8 m a b x = m x.
Proof.
  intros Hx. unfold store8.
  destruct (Z.eqb_spec x a); [contradiction | reflexivity].
Qed.

Lemma memset_inside (m : memory) (p c n x : Z) :
  p <= x < p + n -> memset m p c n x = c mod 256.
Proof.
  intros Hx. unfold memset.
  destruct (Z.leb_spec p x); destruct (Z.ltb_spec x (p + n));
    simpl; try lia; reflexivity.
Qed.

Lemma memset_outside (m : memory) (p c n x : Z) :
  x < p \/ p + n <= x -> memset m p c n x = m x.
Proof.
  intros Hx. unfold memset.
  destruct (Z.leb_spec p x); destruct (Z.ltb_spec x (p + n));
    simpl; try lia; reflexivity.
Qed.

Lemma write_bytes_outside (bs : list Z) :
  forall (m : memory) (a x : Z),
    x < a \/ a + Z.of_nat (List.length bs) <= x ->
    write_bytes m a bs x = m x.
Proof.
  induction bs as [|b rest IH]; intros m a x Hx; simpl; [reflexivity|].
  cbn [List.length] in Hx. rewrite Nat2Z.inj_succ in Hx.
  rewrite IH by lia. apply store8_other. lia.
Qed.

Lemma read_bytes_ext (n : nat) :
  forall (m1 m2 : memory) (a : Z),
    (forall x, a <= x < a + Z.of_nat n -> m1 x = m2 x) ->
    read_bytes m1 a n = read_bytes m2 a n.
Proof.
  induction n as [|k IH]; intros m1 m2 a Heq; simpl; [reflexivity|].
  rewrite (Heq a) by lia. f_equal.
  apply IH. intros x Hx. apply Heq. lia.
Qed.

Lemma read_bytes_length (n : nat) :
  forall (m : memory) (a : Z), List.length (read_bytes m a n) = n.
Proof. induction n; intros; simpl; [|rewrite IHn]; reflexivity. Qed.

Lemma read_bytes_app (n k : nat) :
  forall (m : memory) (a : Z),
    read_bytes m a (n + k) =
    read_bytes m a n ++ read_bytes m (a + Z.of_nat n) k.
Proof.
  induction n as [|n IH]; intros m a.
  - simpl. now rewrite Z.add_0_r.
  - cbn [Nat.add read_bytes app]. rewrite IH. do 3 f_equal. lia.
Qed.

Lemma read_write_bytes (bs : list Z) :
  forall (m : memory) (a : Z),
    read_bytes (write_bytes m a bs) a (List.length bs) =
    List.map (fun b => b mod 256) bs.
Proof.
  induction bs as [|b rest IH]; intros m a; simpl; [reflexivity|].
  rewrite IH. f_equal.
  rewrite write_bytes_outside by lia.
  rewrite store8_same. apply Z.mod_mod. lia.
Qed.

Lemma le_bytes_length (n : nat) : forall v, List.length (le_bytes n v) = n.
Proof. induction n; intros; simpl; [|rewrite IHn]; reflexivity. Qed.

Lemma le_value_mod (bs : list Z) :
  le_value (List.map (fun b => b mod 256) bs) = le_value bs.
Proof.
  induction bs as [|b rest IH]; simpl; [reflexivity|].
  rewrite IH, Z.mod_mod by lia. reflexivity.
Qed.

Lemma le_value_le_bytes (n : nat) :
  forall v, le_value (le_bytes n v) = v mod 256 ^ Z.of_nat n.
Proof.
  induction n as [|k IH]; intros v.
  - simpl. now rewrite Z.mod_1_r.
  - cbn [le_bytes le_value]. rewrite IH, Z.mod_mod by lia.
    rewrite Nat2Z.inj_succ, Z.pow_succ_r by lia.
    rewrite Z.rem_mul_r by lia. reflexivity.
Qed.

Lemma le_value_zeros (n : nat) : le_value (repeat 0 n) = 0.
Proof. induction n; simpl; [|rewrite IHn]; reflexivity. Qed.

Lemma load32_store32 (m : memory) (a v : Z) :
  load32 (store32 m a v) a = wrap32 v.
Proof.
  unfold load32, store32.
  change 4%nat with (List.length (le_bytes 4 v)) at 2.
  rewrite read_write_bytes, le_value_mod.
  apply (le_value_le_bytes 4).
Qed.

Lemma load64_store64 (m : memory) (a v : Z) :
  load64 (store64 m a v) a = wrap64 v.
Proof.
  unfold load64, store64.
  change 8%nat with (List.length (le_bytes 8 v)) at 2.
  rewrite read_write_bytes, le_value_mod.
  apply (le_value_le_bytes 8).
Qed.

Lemma store32_outside (m : memory) (a v x : Z) :
  x < a \/ a + 4 <= x -> store32 m a v x = m x.
Proof.
  intros Hx. unfold store32. apply write_bytes_outside.
  rewrite le_bytes_length. lia.
Qed.

Lemma store64_outside (m : memory) (a v x : Z) :
  x < a \/ a + 8 <= x -> store64 m a v x = m x.
Proof.
  intros Hx. unfold store64. apply write_bytes_outside.
  rewrite le_bytes_length. lia.
Qed.

Lemma load32_ext (m1 m2 : memory) (a : Z) :
  (forall x, a <= x < a + 4 -> m1 x = m2 x) -> load32 m1 a = load32 m2 a.
Proof.
  intros Heq. unfold load32. f_equal. apply read_bytes_ext.
  intros x Hx. apply Heq. lia.
Qed.

Lemma load64_ext (m1 m2 : memory) (a : Z) :
  (forall x, a <= x < a + 8 -> m1 x = m2 x) -> load64 m1 a = load64 m2 a.
Proof.
  intros Heq. unfold load64. f_equal. apply read_bytes_ext.
  intros x Hx. apply Heq. lia.
Qed.

Lemma read_bytes_zeros (n : nat) :
  forall (m : memory) (a : Z),
    (forall x, a <= x < a + Z.of_nat n -> m x = 0) ->
    read_bytes m a n = repeat 0 n.
Proof.
  induction n as [|k IH]; intros m a Hz; simpl; [reflexivity|].
  rewrite (Hz a) by lia. f_equal. apply IH.
  intros x Hx. apply Hz. lia.
Qed.

Lemma le_value_range (bs : list Z) :
  0 <= le_value bs < 256 ^ Z.of_nat (List.length bs).
Proof.
  induction bs as [|b rest IH].
  - simpl. lia.
  - cbn [le_value List.length].
    rewrite Nat2Z.inj_succ, Z.pow_succ_r by lia.
    pose proof (Z.mod_pos_bound b 256). lia.
Qed.

Lemma load32_range (m : memory) (a : Z) : u32 (load32 m a).
Proof.
  unfold load32, u32.
  pose proof (le_value_range (read_bytes m a 4)) as H.
  rewrite read_bytes_length in H. exact H.
Qed.

End Memory.

(* ========================================================================== *)
(** * C string lemmas                                                          *)
(* ========================================================================== *)

Lemma char_code_range (c : ascii) : 0 <= char_code c < 256.
Proof.
  unfold char_code. pose proof (N_ascii_bounded c). lia.
Qed.

Lemma chars_of_range (s : string) :
  Forall (fun c => 0 <= c < 256) (chars_of s).
Proof.
  unfold chars_of. apply Forall_forall. intros c Hc.
  apply in_map_iff in Hc. destruct Hc as [a [<- _]].
  apply char_code_range.
Qed.

Lemma c_string_range (src : list Z) :
  Forall (fun c => 0 <= c < 256) src ->
  Forall (fun c => 0 <= c < 256) (c_string src).
Proof.
  induction 1 as [|c rest Hc _ IH]; simpl; [constructor|].
  destruct (c =? 0); constructor; assumption.
Qed.

Lemma strncpy_length (n : nat) :
  forall src, List.length (strncpy src n) = n.
Proof.
  induction n as [|k IH]; intros src; [reflexivity|].
  cbn [strncpy]. destruct src as [|c rest].
  - apply repeat_length.
  - destruct (c =? 0); [apply repeat_length|].
    cbn [List.length]. now rewrite IH.
Qed.

(** [strncpy] writes the first [n] characters of the C string and pads with
    NUL up to [n] bytes. *)
Lemma strncpy_spec (n : nat) :
  forall src,
    strncpy src n =
    firstn n (c_string src) ++
    repeat 0 (n - List.length (firstn n (c_string src))).
Proof.
  induction n as [|k IH]; intros src; [reflexivity|].
  cbn [strncpy]. destruct src as [|c rest].
  - reflexivity.
  - cbn [c_string]. destruct (c =? 0); [reflexivity|].
    cbn [firstn List.length app Nat.sub]. now rewrite <- IH.
Qed.

Lemma map_mod_id (bs : list Z) :
  Forall (fun c => 0 <= c < 256) bs ->
  List.map (fun b => b mod 256) bs = bs.
Proof.
  induction 1 as [|c rest Hc _ IH]; simpl; [reflexivity|].
  rewrite IH, Z.mod_small by lia. reflexivity.
Qed.

Lemma truncated_length (name : string) :
  (List.length (truncated name) <= 23)%nat.
Proof. unfold truncated. apply firstn_le_length. Qed.

Lemma truncated_range (name : string) :
  Forall (fun c => 0 <= c < 256) (truncated name).
Proof.
  unfold truncated.
  pose proof (c_string_range _ (chars_of_range name)) as H.
  rewrite Forall_forall in *. intros c Hc. apply H.
  rewrite <- (firstn_skipn 23). apply in_or_app. now left.
Qed.

(* ========================================================================== *)
(** * boot_record_init                                                         *)
(* ========================================================================== *)

(** Reduce the field assignments and projections of a state. *)
Ltac simpl_state :=
  unfold set_possible_records, set_records, set_memory_size,
    set_memory_base, set_config, set_mem, zero_config;
  cbn [gboot_records_config mem clock ticks
       memory_base memory_size possible_records records].

Lemma capacity_formula (size : Z) :
  48 <= size < 2 ^ 32 ->
  wrap32 (wrap_size_t (size - sizeof_boot_stage_record_t)
          / sizeof_boot_record_profile_t) = (size - 16) / 32
  /\ 1 <= (size - 16) / 32 < 2 ^ 32.
Proof.
  intros Hs.
  unfold wrap32, wrap_size_t, sizeof_boot_stage_record_t,
    sizeof_boot_record_profile_t.
  change (2 ^ 32) with 4294967296 in *.
  rewrite (Z.mod_small (size - 16)) by lia.
  assert (1 <= (size - 16) / 32 < 4294967296) as Hq.
  { split.
    - apply Z.div_le_lower_bound; lia.
    - apply Z.div_lt_upper_bound; lia. }
  rewrite Z.mod_small by lia. split; [reflexivity | exact Hq].
Qed.

Lemma init_invalid (stage_id buf size : Z) (st : machine) :
  buf = NULL \/ size < 48 ->
  boot_record_init stage_id buf size st =
  (BOOT_RECORD_ERR_INVALID_PARAMS, st).
Proof.
  intros H. unfold boot_record_init.
  change (sizeof_boot_stage_record_t + sizeof_boot_record_profile_t)
    with 48.
  destruct (Z.eqb_spec buf NULL); [reflexivity|].
  destruct (Z.ltb_spec size 48); [reflexivity|]. lia.
Qed.

Lemma init_success (stage_id buf size : Z) (st : machine) :
  buf <> NULL -> 48 <= size < 2 ^ 32 ->
  boot_record_init stage_id buf size st =
  (BOOT_RECORD_SUCCESS,
   {| gboot_records_config :=
        {| memory_base := buf; memory_size := size;
           possible_records := (size - 16) / 32; records := buf |};
      mem := store64
               (store32
                  (store32 (memset (mem st) buf 0 size) (buf + 0) stage_id)
                  (buf + 4) 0)
               (buf + 8) (clock_now st);
      clock := clock st;
      ticks := S (ticks st) |}).
Proof.
  intros Hb Hs. unfold boot_record_init.
  change (sizeof_boot_stage_record_t + sizeof_boot_record_profile_t)
    with 48.
  destruct (Z.eqb_spec buf NULL); [contradiction|].
  destruct (Z.ltb_spec size 48); [lia|].
  cbn [orb]. simpl_state.
  destruct (capacity_formula size Hs) as [-> Hq].
  destruct (Z.eqb_spec ((size - 16) / 32) 0); [lia|].
  reflexivity.
Qed.

(** Every call with a [uint32_t] size takes one of the two branches above. *)
Lemma init_cases (stage_id buf size : Z) (st : machine) :
  u32 size ->
  (buf = NULL \/ size < 48) \/ (buf <> NULL /\ 48 <= size < 2 ^ 32).
Proof. unfold u32, NULL. intros H. lia. Qed.

(* ========================================================================== *)
(** * boot_record_log_profile                                                  *)
(* ========================================================================== *)


Lemma log_uninitialized (name : option string) (st : machine) :
  uninitialized st ->
  boot_record_log_profile name st = (BOOT_RECORD_ERR_INVALID_PARAMS, st).
Proof.
  intros Hu. destruct name as [name|]; [|reflexivity].
  unfold boot_record_log_profile, uninitialized in *.
  destruct (Z.eqb_spec (records (gboot_records_config st)) NULL);
    [reflexivity|].
  destruct (Z.eqb_spec (memory_base (gboot_records_config st)) NULL);
    [reflexivity|].
  tauto.
Qed.

Lemma log_overflow (name : string) (st : machine) :
  active st -> capacity st <= record_count st ->
  boot_record_log_profile (Some name) st = (BOOT_RECORD_ERR_OVERFLOW, st).
Proof.
  intros [Hr Hb] Hfull.
  unfold boot_record_log_profile, capacity, record_count, stage_addr in *.
  destruct (Z.eqb_spec (records (gboot_records_config st)) NULL);
    [contradiction|].
  destruct (Z.eqb_spec (memory_base (gboot_records_config st)) NULL);
    [contradiction|].
  cbn [orb].
  destruct (Z.leb_spec (possible_records (gboot_records_config st))
              (load32 (mem st)
                 (records (gboot_records_config st) + offset_record_count)));
    [reflexivity | lia].
Qed.

Lemma log_success (name : string) (st : machine) :
  active st -> record_count st < capacity st ->
  boot_record_log_profile (Some name) st =
  (BOOT_RECORD_SUCCESS,
   {| gboot_records_config := gboot_records_config st;
      mem :=
        let p := profile_addr (stage_addr st) (record_count st) in
        store32
          (store64
             (store8
                (write_bytes (mem st) (p + 0) (strncpy (chars_of name) 23))
                (p + 0 + 23) 0)
             (p + 24) (clock_now st))
          (stage_addr st + 4) (wrap32 (record_count st + 1));
      clock := clock st;
      ticks := S (ticks st) |}).
Proof.
  intros [Hr Hb] Hroom.
  unfold boot_record_log_profile, capacity, record_count, stage_addr in *.
  destruct (Z.eqb_spec (records (gboot_records_config st)) NULL);
    [contradiction|].
  destruct (Z.eqb_spec (memory_base (gboot_records_config st)) NULL);
    [contradiction|].
  cbn [orb].
  destruct (Z.leb_spec (possible_records (gboot_records_config st))
              (load32 (mem st)
                 (records (gboot_records_config st) + offset_record_count)));
    [lia | reflexivity].
Qed.

(** The status of a call with a label is decided by these three cases. *)
Lemma log_cases (st : machine) :
  uninitialized st \/
  (active st /\ capacity st <= record_count st) \/
  (active st /\ record_count st < capacity st).
Proof. unfold uninitialized, active. lia. Qed.

Section LoggedMemory.

Variables (m : memory) (p a t v : Z) (bs : list Z).
Hypothesis bs_length : List.length bs = 23%nat.
Hypothesis disjoint : a + 4 <= p \/ p + 32 <= a.

(** The memory after the writes of a successful append, in program order. *)
Local Abbreviation logged :=
  (store32 (store64 (store8 (write_bytes m (p + 0) bs) (p + 0 + 23) 0)
              (p + 24) t) a v).

Lemma logged_frame (x : Z) :
  x < a \/ a + 4 <= x -> x < p \/ p + 32 <= x -> logged x = m x.
Proof.
  intros Ha Hp.
  rewrite store32_outside, store64_outside, store8_other by lia.
  apply write_bytes_outside. lia.
Qed.

Lemma logged_count : load32 logged a = wrap32 v.
Proof. apply load32_store32. Qed.

Lemma logged_time : load64 logged (p + 24) = wrap64 t.
Proof.
  rewrite (load64_ext _ (store64 (store8 (write_bytes m (p + 0) bs)
                                    (p + 0 + 23) 0) (p + 24) t)).
  - apply load64_store64.
  - intros x Hx. apply store32_outside. lia.
Qed.

Lemma logged_name :
  read_bytes logged (p + 0) 24 = List.map (fun b => b mod 256) bs ++ [0].
Proof.
  change 24%nat with (23 + 1)%nat. rewrite read_bytes_app. f_equal.
  - rewrite (read_bytes_ext _ _ (write_bytes m (p + 0) bs)).
    + rewrite <- bs_length. apply read_write_bytes.
    + intros x Hx.
      rewrite store32_outside, store64_outside, store8_other by lia.
      reflexivity.
  - cbn [read_bytes].
    rewrite store32_outside, store64_outside by lia.
    change (Z.of_nat 23) with 23. rewrite store8_same. reflexivity.
Qed.

End LoggedMemory.

Lemma strncpy_name_field (name : string) :
  List.map (fun b => b mod 256) (strncpy (chars_of name) 23) ++ [0] =
  name_field name.
Proof.
  unfold name_field. rewrite strncpy_spec. fold (truncated name).
  pose proof (truncated_length name) as Hlen.
  rewrite map_mod_id.
  - rewrite <- app_assoc. f_equal.
    replace (24 - List.length (truncated name))%nat
      with (S (23 - List.length (truncated name)))%nat by lia.
    now rewrite <- repeat_cons.
  - apply Forall_app. split; [apply truncated_range|].
    apply Forall_forall. intros c Hc.
    apply repeat_spec in Hc. subst c. lia.
Qed.

Lemma name_field_length (name : string) :
  List.length (name_field name) = 24%nat.
Proof.
  unfold name_field. pose proof (truncated_length name).
  rewrite length_app, repeat_length. lia.
Qed.

Lemma record_count_range (st : machine) : u32 (record_count st).
Proof. apply load32_range. Qed.

(** What a successful append does to the store. *)
Lemma log_success_effect (name : string) (st : machine) :
  active st -> u32 (capacity st) -> record_count st < capacity st ->
  let st' := snd (boot_record_log_profile (Some name) st) in
  gboot_records_config st' = gboot_records_config st /\
  clock st' = clock st /\ ticks st' = S (ticks st) /\
  record_count st' = record_count st + 1 /\
  entry_name st' (record_count st) = name_field name /\
  entry_time st' (record_count st) = clock_now st.
Proof.
  intros Ha Hcap Hroom. rewrite (log_success name st Ha Hroom).
  cbn [snd gboot_records_config clock ticks].
  pose proof (record_count_range st) as Hrc.
  assert (stage_addr st + 16 <=
          profile_addr (stage_addr st) (record_count st)) as Hdisj.
  { unfold profile_addr, offset_profiles, sizeof_boot_record_profile_t,
      u32 in *. lia. }
  unfold entry_name, entry_time, offset_name, offset_time, record_count,
    stage_addr, offset_record_count in *.
  cbn [gboot_records_config mem].
  repeat split.
  - rewrite load32_store32. unfold wrap32, u32 in *.
    rewrite Z.mod_mod by lia. apply Z.mod_small. lia.
  - rewrite logged_name.
    + apply strncpy_name_field.
    + apply strncpy_length.
    + lia.
  - rewrite logged_time; [| apply strncpy_length | lia].
    unfold clock_now, wrap64. apply Z.mod_mod. lia.
Qed.

(** No call to [boot_record_log_profile] touches anything but the
    [record_count] field and the slot at index [record_count]. *)
Lemma log_frame (name : option string) (st : machine) :
  let st' := snd (boot_record_log_profile name st) in
  gboot_records_config st' = gboot_records_config st /\
  clock st' = clock st /\
  forall x,
    x < stage_addr st + 4 \/ stage_addr st + 8 <= x ->
    x < profile_addr (stage_addr st) (record_count st) \/
    profile_addr (stage_addr st) (record_count st) + 32 <= x ->
    mem st' x = mem st x.
Proof.
  destruct name as [name|]; [|cbn; auto].
  destruct (log_cases st) as [Hu | [[Ha Hfull] | [Ha Hroom]]].
  - rewrite (log_uninitialized _ st Hu). cbn. auto.
  - rewrite (log_overflow name st Ha Hfull). cbn. auto.
  - rewrite (log_success name st Ha Hroom).
    cbn [snd gboot_records_config clock mem]. repeat split.
    intros x Hh Hs. apply logged_frame.
    + apply strncpy_length.
    + pose proof (record_count_range st) as Hrc.
      unfold profile_addr, offset_profiles, sizeof_boot_record_profile_t,
        u32 in *. lia.
    + lia.
    + lia.
Qed.

(** The header fields other than [record_count] and the slots below
    [record_count] read the same after any call. *)
Lemma log_preserves (name : option string) (st : machine) :
  let st' := snd (boot_record_log_profile name st) in
  read_bytes (mem st') (stage_addr st' + offset_record_id) 4 =
  read_bytes (mem st) (stage_addr st + offset_record_id) 4 /\
  read_bytes (mem st') (stage_addr st' + offset_start_time) 8 =
  read_bytes (mem st) (stage_addr st + offset_start_time) 8 /\
  forall i, 0 <= i < record_count st ->
    read_bytes (mem st') (profile_addr (stage_addr st') i) 32 =
    read_bytes (mem st) (profile_addr (stage_addr st) i) 32.
Proof.
  destruct (log_frame name st) as [Hcfg [_ Hmem]].
  pose proof (record_count_range st) as Hrc. unfold u32 in Hrc.
  cbv zeta. unfold stage_addr in *. rewrite Hcfg.
  unfold offset_record_id, offset_start_time, profile_addr,
    offset_profiles, sizeof_boot_record_profile_t in *.
  repeat split.
  - apply read_bytes_ext. intros x Hx. apply Hmem; lia.
  - apply read_bytes_ext. intros x Hx. apply Hmem; lia.
  - intros i Hi. apply read_bytes_ext. intros x Hx.
    apply Hmem; lia.
Qed.

(* ========================================================================== *)
(** * Initialisation: status, capacity, failure                                *)
(* ========================================================================== *)

Lemma init_failure_unchanged (stage_id buf size : Z) (st : machine) :
  u32 size ->
  fst (boot_record_init stage_id buf size st) <> BOOT_RECORD_SUCCESS ->
  boot_record_init stage_id buf size st =
  (BOOT_RECORD_ERR_INVALID_PARAMS, st).
Proof.
  intros Hs Hfail.
  destruct (init_cases stage_id buf size st Hs) as [Hbad | [Hb Hsz]].
  - now apply init_invalid.
  - rewrite (init_success stage_id buf size st Hb Hsz) in Hfail.
    now contradiction Hfail.
Qed.

(** C1. Whenever [boot_record_init] returns success, the capacity it stored
    in [possible_records] is [floor((size - 16) / 32)]; a buffer of 1024
    bytes holds 31 entries and one of 48 bytes holds 1. *)
Theorem init_capacity (stage_id buf size : Z) (st : machine) :
  u32 size ->
  fst (boot_record_init stage_id buf size st) = BOOT_RECORD_SUCCESS ->
  capacity (snd (boot_record_init stage_id buf size st)) = (size - 16) / 32
  /\ (size = 1024 ->
      capacity (snd (boot_record_init stage_id buf size st)) = 31)
  /\ (size = 48 ->
      capacity (snd (boot_record_init stage_id buf size st)) = 1).
Proof.
  intros Hs Hok.
  destruct (init_cases stage_id buf size st Hs) as [Hbad | [Hb Hsz]].
  - rewrite (init_invalid stage_id buf size st Hbad) in Hok. discriminate.
  - rewrite (init_success stage_id buf size st Hb Hsz).
    unfold capacity.
    cbn [snd gboot_records_config possible_records].
    repeat split; intros ->; reflexivity.
Qed.

Lemma init_capacity_witness :
  u32 1024 /\
  fst (boot_record_init 1 4096 1024 (power_on blank stopped_clock)) =
    BOOT_RECORD_SUCCESS /\
  capacity (snd (boot_record_init 1 4096 1024
                   (power_on blank stopped_clock))) = 31.
Proof.
  assert (u32 1024) as H1 by (unfold u32; lia).
  assert (fst (boot_record_init 1 4096 1024 (power_on blank stopped_clock))
          = BOOT_RECORD_SUCCESS) as H2 by reflexivity.
  split; [exact H1 | split; [exact H2 |]].
  apply (init_capacity 1 4096 1024 (power_on blank stopped_clock) H1 H2).
  reflexivity.
Defined.

(** C4. [boot_record_init] returns InvalidParams exactly when the buffer is
    null or the size is below 48 = header size + one entry size; sizes 16
    and 47 and a null buffer are rejected, size 48 is accepted. *)
Theorem init_invalid_params_iff (stage_id buf size : Z) (st : machine) :
  u32 size ->
  (fst (boot_record_init stage_id buf size st) =
     BOOT_RECORD_ERR_INVALID_PARAMS <-> buf = NULL \/ size < 16 + 32)
  /\ fst (boot_record_init 1 buf 16 st) = BOOT_RECORD_ERR_INVALID_PARAMS
  /\ fst (boot_record_init 1 buf 47 st) = BOOT_RECORD_ERR_INVALID_PARAMS
  /\ fst (boot_record_init 1 NULL 1024 st) = BOOT_RECORD_ERR_INVALID_PARAMS
  /\ (buf <> NULL ->
      fst (boot_record_init 1 buf 48 st) = BOOT_RECORD_SUCCESS).
Proof.
  intros Hs. split; [split|].
  - intros Hinv.
    destruct (init_cases stage_id buf size st Hs) as [Hbad | [Hb Hsz]].
    + lia.
    + rewrite (init_success stage_id buf size st Hb Hsz) in Hinv.
      discriminate.
  - intros Hbad. rewrite init_invalid by lia. reflexivity.
  - split; [|split; [|split]].
    + rewrite init_invalid by lia. reflexivity.
    + rewrite init_invalid by lia. reflexivity.
    + rewrite init_invalid by (left; reflexivity). reflexivity.
    + intros Hb. rewrite init_success; [reflexivity | assumption | lia].
Qed.

Lemma init_invalid_params_iff_witness :
  u32 47 /\ (4096 = NULL \/ 47 < 16 + 32) /\ 4096 <> NULL /\
  fst (boot_record_init 7 4096 47 (power_on blank stopped_clock)) =
    BOOT_RECORD_ERR_INVALID_PARAMS /\
  fst (boot_record_init 1 4096 48 (power_on blank stopped_clock)) =
    BOOT_RECORD_SUCCESS.
Proof.
  assert (u32 47) as H1 by (unfold u32; lia).
  assert (4096 = NULL \/ 47 < 16 + 32) as H2 by (right; lia).
  assert (4096 <> NULL) as H3 by (unfold NULL; lia).
  pose proof (init_invalid_params_iff 7 4096 47
                (power_on blank stopped_clock) H1) as [Hiff [_ [_ [_ H48]]]].
  split; [exact H1 | split; [exact H2 | split; [exact H3 | split]]].
  - apply Hiff. exact H2.
  - apply H48. exact H3.
Defined.

(** C6. [boot_record_init] never returns InsufficientMemory: once the size
    check passes the computed capacity is at least 1, so the result is
    always Success or InvalidParams. *)
Theorem init_never_insufficient_mem (stage_id buf size : Z) (st : machine) :
  u32 size ->
  fst (boot_record_init stage_id buf size st) <>
    BOOT_RECORD_ERR_INSUFFICIENT_MEM
  /\ (fst (boot_record_init stage_id buf size st) = BOOT_RECORD_SUCCESS \/
      fst (boot_record_init stage_id buf size st) =
        BOOT_RECORD_ERR_INVALID_PARAMS)
  /\ (16 + 32 <= size ->
      1 <= wrap32 (wrap_size_t (size - sizeof_boot_stage_record_t)
                   / sizeof_boot_record_profile_t)).
Proof.
  intros Hs.
  destruct (init_cases stage_id buf size st Hs) as [Hbad | [Hb Hsz]].
  - rewrite (init_invalid stage_id buf size st Hbad). cbn [fst].
    repeat split; [discriminate | now right |].
    intros Hge. destruct (capacity_formula size) as [-> ?]; unfold u32 in Hs;
      lia.
  - rewrite (init_success stage_id buf size st Hb Hsz). cbn [fst].
    repeat split; [discriminate | now left |].
    intros _. destruct (capacity_formula size Hsz) as [-> ?]. lia.
Qed.

Lemma init_never_insufficient_mem_witness :
  u32 48 /\ 16 + 32 <= 48 /\
  fst (boot_record_init 1 4096 48 (power_on blank stopped_clock)) <>
    BOOT_RECORD_ERR_INSUFFICIENT_MEM /\
  1 <= wrap32 (wrap_size_t (48 - sizeof_boot_stage_record_t)
               / sizeof_boot_record_profile_t).
Proof.
  assert (u32 48) as H1 by (unfold u32; lia).
  assert (16 + 32 <= 48) as H2 by lia.
  pose proof (init_never_insufficient_mem 1 4096 48
                (power_on blank stopped_clock) H1) as [Hne [_ Hcap]].
  split; [exact H1 | split; [exact H2 | split; [exact Hne |]]].
  apply Hcap. exact H2.
Defined.

(* ========================================================================== *)
(** * Failing calls leave the store as it is                                   *)
(* ========================================================================== *)

(** In a state where no append changes anything, a sequence of appends and
    failing initialisations changes nothing. *)
Lemma run_stuck (cs : list call) (st : machine) :
  Forall wf_call cs -> no_init_succeeds cs st ->
  (forall name, snd (boot_record_log_profile name st) = st) ->
  run cs st = st.
Proof.
  intros Hwf. revert st.
  induction Hwf as [|c rest Hc _ IH]; intros st Hno Hlog; [reflexivity|].
  destruct Hno as [Hfail Hrest].
  assert (snd (do_call c st) = st) as Heq.
  { destruct c as [stage_id buf size | name]; cbn [do_call] in *.
    - destruct Hc as [_ Hs].
      now rewrite (init_failure_unchanged stage_id buf size st Hs Hfail).
    - apply Hlog. }
  cbn [run]. rewrite Heq in *. now apply IH.
Qed.

(** C3. When [record_count] equals [possible_records] an append returns
    Overflow and changes neither [record_count] nor the buffer; as long as
    no initialisation succeeds, the store stays as it is and every further
    append returns Overflow. *)
Theorem log_overflow_permanent (name : string) (st : machine) :
  active st -> record_count st = capacity st ->
  boot_record_log_profile (Some name) st = (BOOT_RECORD_ERR_OVERFLOW, st)
  /\ forall cs,
       Forall wf_call cs -> no_init_succeeds cs st ->
       run cs st = st /\
       forall name',
         boot_record_log_profile (Some name') (run cs st) =
         (BOOT_RECORD_ERR_OVERFLOW, run cs st).
Proof.
  intros Ha Hfull.
  assert (forall n, boot_record_log_profile (Some n) st =
                    (BOOT_RECORD_ERR_OVERFLOW, st)) as Hov.
  { intros n. apply log_overflow; [assumption | lia]. }
  split; [apply Hov|].
  intros cs Hwf Hno.
  assert (run cs st = st) as Hrun.
  { apply run_stuck; try assumption.
    intros [n|]; [now rewrite Hov | reflexivity]. }
  rewrite Hrun. split; [reflexivity | apply Hov].
Qed.

(** C8. [boot_record_log_profile] returns InvalidParams and changes nothing
    when the label is null, and when no buffer is bound; the latter is the
    case after power-on and after any sequence of calls in which no
    initialisation succeeded. *)
Theorem log_invalid_params (st : machine) :
  boot_record_log_profile None st = (BOOT_RECORD_ERR_INVALID_PARAMS, st)
  /\ (uninitialized st ->
      forall name,
        boot_record_log_profile name st =
        (BOOT_RECORD_ERR_INVALID_PARAMS, st))
  /\ (forall m clk cs,
        st = run cs (power_on m clk) ->
        Forall wf_call cs -> no_init_succeeds cs (power_on m clk) ->
        forall name,
          boot_record_log_profile name st =
          (BOOT_RECORD_ERR_INVALID_PARAMS, st))
  /\ (forall m clk,
        boot_record_log_profile (Some "x"%string) (power_on m clk) =
        (BOOT_RECORD_ERR_INVALID_PARAMS, power_on m clk)).
Proof.
  assert (forall m clk, uninitialized (power_on m clk)) as Hpo
    by (intros; left; reflexivity).
  split; [reflexivity | split; [|split]].
  - intros Hu name. now apply log_uninitialized.
  - intros m clk cs -> Hwf Hno name.
    rewrite (run_stuck cs (power_on m clk) Hwf Hno).
    + apply log_uninitialized, Hpo.
    + intros n. now rewrite (log_uninitialized n _ (Hpo m clk)).
  - intros m clk. apply log_uninitialized, Hpo.
Qed.

(** C5, as the code has it. A failing [boot_record_init] changes nothing:
    a store that was uninitialised stays so and rejects every append with
    InvalidParams, a store that was active stays active. *)
Theorem failed_init_changes_nothing (stage_id buf size : Z) (st : machine) :
  u32 size ->
  fst (boot_record_init stage_id buf size st) <> BOOT_RECORD_SUCCESS ->
  snd (boot_record_init stage_id buf size st) = st
  /\ (uninitialized st ->
      forall name,
        boot_record_log_profile name
          (snd (boot_record_init stage_id buf size st)) =
        (BOOT_RECORD_ERR_INVALID_PARAMS,
         snd (boot_record_init stage_id buf size st)))
  /\ (active st -> active (snd (boot_record_init stage_id buf size st))).
Proof.
  intros Hs Hfail.
  rewrite (init_failure_unchanged stage_id buf size st Hs Hfail).
  cbn [snd]. split; [reflexivity | split].
  - intros Hu name. now apply log_uninitialized.
  - trivial.
Qed.

(** C5, as the specification has it, fails: after [init(1, 4096, 1024)]
    succeeded, [init(2, NULL, 1024)] fails with InvalidParams, and the next
    append is accepted. *)
Lemma failed_init_does_not_uninitialize :
  ~ (forall stage_id buf size st name,
       u32 size ->
       fst (boot_record_init stage_id buf size st) <> BOOT_RECORD_SUCCESS ->
       fst (boot_record_log_profile (Some name)
              (snd (boot_record_init stage_id buf size st))) =
       BOOT_RECORD_ERR_INVALID_PARAMS).
Proof.
  intros Hclaim.
  specialize (Hclaim 2 NULL 1024
                (snd (boot_record_init 1 4096 1024
                        (power_on blank stopped_clock)))
                "x"%string).
  assert (u32 1024) as Hs by (unfold u32; lia).
  specialize (Hclaim Hs).
  vm_compute in Hclaim.
  assert (BOOT_RECORD_SUCCESS = BOOT_RECORD_ERR_INVALID_PARAMS) as Habs.
  { apply Hclaim. discriminate. }
  discriminate Habs.
Qed.

Lemma log_overflow_permanent_witness :
  let st := run [Init 1 4096 48; Log (Some "a"%string)]
              (power_on blank stopped_clock) in
  let cs := [Log (Some "b"%string); Init 9 NULL 64; Log None] in
  active st /\ record_count st = capacity st /\
  Forall wf_call cs /\ no_init_succeeds cs st /\
  boot_record_log_profile (Some "c"%string) (run cs st) =
  (BOOT_RECORD_ERR_OVERFLOW, run cs st).
Proof.
  intros st cs.
  assert (active st) as Ha by (split; vm_compute; discriminate).
  assert (record_count st = capacity st) as Hfull by reflexivity.
  assert (Forall wf_call cs) as Hwf
    by (repeat constructor; unfold u32; lia).
  assert (no_init_succeeds cs st) as Hno
    by (vm_compute; repeat split; discriminate).
  split; [exact Ha | split; [exact Hfull | split; [exact Hwf |
    split; [exact Hno |]]]].
  destruct (log_overflow_permanent "b"%string st Ha Hfull) as [_ Hperm].
  destruct (Hperm cs Hwf Hno) as [_ Hlater]. apply Hlater.
Defined.

Lemma log_invalid_params_witness :
  let cs := [Log (Some "a"%string); Init 1 4096 47; Init 1 NULL 1024] in
  let st := run cs (power_on blank stopped_clock) in
  uninitialized st /\ Forall wf_call cs /\
  no_init_succeeds cs (power_on blank stopped_clock) /\
  boot_record_log_profile (Some "x"%string) st =
  (BOOT_RECORD_ERR_INVALID_PARAMS, st).
Proof.
  intros cs st.
  assert (uninitialized st) as Hu by (left; reflexivity).
  assert (Forall wf_call cs) as Hwf
    by (repeat constructor; unfold u32; lia).
  assert (no_init_succeeds cs (power_on blank stopped_clock)) as Hno
    by (vm_compute; repeat split; discriminate).
  split; [exact Hu | split; [exact Hwf | split; [exact Hno |]]].
  destruct (log_invalid_params st) as [_ [_ [Hrun _]]].
  apply (Hrun blank stopped_clock cs eq_refl Hwf Hno).
Defined.

Lemma failed_init_changes_nothing_witness :
  let st := snd (boot_record_init 1 4096 1024
                   (power_on blank stopped_clock)) in
  u32 1024 /\
  fst (boot_record_init 2 NULL 1024 st) <> BOOT_RECORD_SUCCESS /\
  active st /\
  snd (boot_record_init 2 NULL 1024 st) = st /\
  active (snd (boot_record_init 2 NULL 1024 st)).
Proof.
  intros st.
  assert (u32 1024) as Hs by (unfold u32; lia).
  assert (fst (boot_record_init 2 NULL 1024 st) <> BOOT_RECORD_SUCCESS)
    as Hfail by (vm_compute; discriminate).
  assert (active st) as Ha by (split; vm_compute; discriminate).
  destruct (failed_init_changes_nothing 2 NULL 1024 st Hs Hfail)
    as [Hsame [_ Hact]].
  split; [exact Hs | split; [exact Hfail | split; [exact Ha |
    split; [exact Hsame | exact (Hact Ha)]]]].
Defined.

(* ========================================================================== *)
(** * Successful initialisation                                                *)
(* ========================================================================== *)

Section InitMemory.

Variables (m : memory) (buf size stage_id t : Z).

(** The memory after the writes of a successful initialisation, in program
    order. *)
Local Abbreviation fresh :=
  (store64 (store32 (store32 (memset m buf 0 size) (buf + 0) stage_id)
              (buf + 4) 0) (buf + 8) t).

Lemma fresh_record_id : load32 fresh (buf + 0) = wrap32 stage_id.
Proof.
  rewrite (load32_ext _ (store32 (memset m buf 0 size) (buf + 0) stage_id)).
  - apply load32_store32.
  - intros x Hx. rewrite store64_outside, store32_outside by lia.
    reflexivity.
Qed.

Lemma fresh_record_count : load32 fresh (buf + 4) = 0.
Proof.
  rewrite (load32_ext _ (store32 (store32 (memset m buf 0 size) (buf + 0)
                                    stage_id) (buf + 4) 0)).
  - apply load32_store32.
  - intros x Hx. apply store64_outside. lia.
Qed.

Lemma fresh_start_time : load64 fresh (buf + 8) = wrap64 t.
Proof. apply load64_store64. Qed.

Lemma fresh_entries_zero (x : Z) :
  buf + 16 <= x < buf + size -> fresh x = 0.
Proof.
  intros Hx.
  rewrite store64_outside, !store32_outside by lia.
  now rewrite memset_inside by lia.
Qed.

Lemma fresh_outside (x : Z) :
  48 <= size -> x < buf \/ buf + size <= x -> fresh x = m x.
Proof.
  intros Hsize Hx.
  rewrite store64_outside, !store32_outside by lia.
  now rewrite memset_outside by lia.
Qed.

End InitMemory.

(** C7. A successful [boot_record_init] leaves a state that depends on its
    arguments and the clock only: the configuration is bound to the buffer,
    the header reads [record_id = stage_id], [record_count = 0],
    [start_time = Clock.now()], every byte of the buffer after the header
    is zero, nothing outside the buffer is written, and an append with any
    label succeeds, whatever the store was before, a full one included. *)
Theorem init_resets_store (stage_id buf size : Z) (st : machine) :
  u32 stage_id -> u32 size ->
  fst (boot_record_init stage_id buf size st) = BOOT_RECORD_SUCCESS ->
  let st' := snd (boot_record_init stage_id buf size st) in
  gboot_records_config st' =
    {| memory_base := buf; memory_size := size;
       possible_records := (size - 16) / 32; records := buf |}
  /\ record_id st' = stage_id
  /\ record_count st' = 0
  /\ start_time st' = clock_now st
  /\ (forall x, buf + 16 <= x < buf + size -> mem st' x = 0)
  /\ (forall x, x < buf \/ buf + size <= x -> mem st' x = mem st x)
  /\ (forall name,
        fst (boot_record_log_profile (Some name) st') = BOOT_RECORD_SUCCESS
        /\ record_count (snd (boot_record_log_profile (Some name) st')) = 1).
Proof.
  intros Hid Hs Hok.
  destruct (init_cases stage_id buf size st Hs) as [Hbad | [Hb Hsz]].
  { rewrite (init_invalid stage_id buf size st Hbad) in Hok. discriminate. }
  rewrite (init_success stage_id buf size st Hb Hsz).
  cbn [snd]. set (st' := mk_machine _ _ _ _).
  assert (record_count st' = 0) as Hrc.
  { unfold record_count, stage_addr, offset_record_count. subst st'.
    cbn [gboot_records_config mem records]. apply fresh_record_count. }
  assert (active st') as Ha by (split; assumption).
  assert (capacity st' = (size - 16) / 32) as Hcap by reflexivity.
  destruct (capacity_formula size Hsz) as [_ Hq].
  split; [reflexivity | split; [| split; [exact Hrc | split;
    [| split; [| split]]]]].
  - unfold record_id, stage_addr, offset_record_id. subst st'.
    cbn [gboot_records_config mem records].
    rewrite fresh_record_id. apply Z.mod_small. exact Hid.
  - unfold start_time, stage_addr, offset_start_time. subst st'.
    cbn [gboot_records_config mem records].
    rewrite fresh_start_time.
    unfold clock_now, wrap64. apply Z.mod_mod. lia.
  - intros x Hx. subst st'. cbn [mem]. apply fresh_entries_zero. exact Hx.
  - intros x Hx. subst st'. cbn [mem]. apply fresh_outside; [lia | exact Hx].
  - intros name.
    assert (record_count st' < capacity st') as Hroom by lia.
    assert (u32 (capacity st')) as Hu by (rewrite Hcap; unfold u32; lia).
    destruct (log_success_effect name st' Ha Hu Hroom)
      as [_ [_ [_ [Hcnt _]]]].
    rewrite (log_success name st' Ha Hroom) in *. cbn [fst snd] in *.
    split; [reflexivity | lia].
Qed.

Lemma init_resets_store_witness :
  let st := run [Init 1 4096 48; Log (Some "a"%string);
                 Log (Some "b"%string)] (power_on blank stopped_clock) in
  let st' := snd (boot_record_init 2 8192 80 st) in
  u32 2 /\ u32 80 /\
  fst (boot_record_init 2 8192 80 st) = BOOT_RECORD_SUCCESS /\
  record_count st = capacity st /\
  record_id st' = 2 /\ record_count st' = 0 /\ capacity st' = 2 /\
  fst (boot_record_log_profile (Some "c"%string) st') = BOOT_RECORD_SUCCESS.
Proof.
  intros st st'.
  assert (u32 2) as Hid by (unfold u32; lia).
  assert (u32 80) as Hs by (unfold u32; lia).
  assert (fst (boot_record_init 2 8192 80 st) = BOOT_RECORD_SUCCESS)
    as Hok by reflexivity.
  destruct (init_resets_store 2 8192 80 st Hid Hs Hok)
    as [Hcfg [Hrid [Hrc [_ [_ [_ Hlog]]]]]].
  split; [exact Hid | split; [exact Hs | split; [exact Hok |
    split; [reflexivity | split; [exact Hrid | split; [exact Hrc |
    split]]]]]].
  - unfold capacity. subst st'. rewrite Hcfg. reflexivity.
  - apply Hlog.
Defined.

(* ========================================================================== *)
(** * The capacity invariant                                                   *)
(* ========================================================================== *)

Lemma load32_memset_zero (m : memory) (p n a : Z) :
  p <= a -> a + 4 <= p + n -> load32 (memset m p 0 n) a = 0.
Proof.
  intros Hlo Hhi. unfold load32.
  rewrite (read_bytes_zeros 4).
  - reflexivity.
  - intros x Hx. rewrite memset_inside by lia. reflexivity.
Qed.

Lemma wrap32_range (v : Z) : u32 (wrap32 v).
Proof. unfold u32, wrap32. apply Z.mod_pos_bound. lia. Qed.

Lemma power_on_inv (m : memory) (clk : nat -> Z) : store_inv (power_on m clk).
Proof.
  split.
  - unfold u32. cbn. lia.
  - intros [Hr _]. now contradiction Hr.
Qed.

Lemma init_inv (stage_id buf size : Z) (st : machine) :
  store_inv st -> store_inv (snd (boot_record_init stage_id buf size st)).
Proof.
  intros Hinv. unfold boot_record_init.
  change (sizeof_boot_stage_record_t + sizeof_boot_record_profile_t)
    with 48.
  destruct (Z.eqb_spec buf NULL) as [|Hb]; [exact Hinv|].
  destruct (Z.ltb_spec size 48) as [|Hsz]; [exact Hinv|].
  cbn [orb]. simpl_state.
  set (cap := wrap32 _).
  pose proof (wrap32_range
                (wrap_size_t (size - sizeof_boot_stage_record_t)
                 / sizeof_boot_record_profile_t)) as Hcap.
  fold cap in Hcap.
  destruct (Z.eqb_spec cap 0) as [Hz | Hnz]; cbn [snd].
  - split; [exact Hcap|]. intros _.
    unfold record_count, capacity, stage_addr, offset_record_count,
      set_config, set_mem.
    cbn [gboot_records_config mem records possible_records].
    rewrite load32_memset_zero by lia. unfold u32 in Hcap. lia.
  - unfold boot_record_get_timestamp. cbn [snd].
    split; [exact Hcap|]. intros _.
    unfold record_count, capacity, stage_addr, offset_record_count,
      offset_record_id, offset_start_time, set_config, set_mem.
    cbn [gboot_records_config mem records possible_records].
    rewrite fresh_record_count. unfold u32 in Hcap. lia.
Qed.

Lemma log_inv (name : option string) (st : machine) :
  store_inv st -> store_inv (snd (boot_record_log_profile name st)).
Proof.
  intros [Hcap Hinv].
  destruct name as [name|]; [|split; assumption].
  destruct (log_cases st) as [Hu | [[Ha Hfull] | [Ha Hroom]]].
  - rewrite (log_uninitialized _ st Hu). split; assumption.
  - rewrite (log_overflow name st Ha Hfull). split; assumption.
  - destruct (log_success_effect name st Ha Hcap Hroom)
      as [Hcfg [_ [_ [Hcnt _]]]].
    unfold store_inv, capacity, active in *. rewrite Hcfg, Hcnt.
    split; [exact Hcap | intros _; lia].
Qed.

Lemma run_inv (cs : list call) :
  forall st, store_inv st -> store_inv (run cs st).
Proof.
  induction cs as [|c rest IH]; intros st Hinv; [exact Hinv|].
  cbn [run]. apply IH.
  destruct c as [stage_id buf size | name]; cbn [do_call].
  - now apply init_inv.
  - now apply log_inv.
Qed.

(** C9. In every state reached from power-on by any sequence of
    [boot_record_init] and [boot_record_log_profile] calls, an active store
    has [record_count <= possible_records]. *)
Theorem record_count_bounded (m : memory) (clk : nat -> Z) (cs : list call) :
  active (run cs (power_on m clk)) ->
  0 <= record_count (run cs (power_on m clk)) <=
  capacity (run cs (power_on m clk)).
Proof.
  intros Ha.
  destruct (run_inv cs (power_on m clk) (power_on_inv m clk)) as [_ Hinv].
  pose proof (record_count_range (run cs (power_on m clk))) as Hrc.
  unfold u32 in Hrc. split; [lia | now apply Hinv].
Qed.

Lemma record_count_bounded_witness :
  let cs := [Init 1 4096 48; Log (Some "a"%string); Log (Some "b"%string)] in
  active (run cs (power_on blank stopped_clock)) /\
  0 <= record_count (run cs (power_on blank stopped_clock)) <=
  capacity (run cs (power_on blank stopped_clock)).
Proof.
  intros cs.
  assert (active (run cs (power_on blank stopped_clock))) as Ha
    by (split; vm_compute; discriminate).
  split; [exact Ha |].
  apply (record_count_bounded blank stopped_clock cs Ha).
Defined.

(* ========================================================================== *)
(** * Appending                                                                *)
(* ========================================================================== *)

Lemma entry_ext (st st' : machine) (i : Z) :
  stage_addr st' = stage_addr st ->
  (forall x,
     profile_addr (stage_addr st) i <= x <
     profile_addr (stage_addr st) i + 32 -> mem st' x = mem st x) ->
  entry_name st' i = entry_name st i /\ entry_time st' i = entry_time st i.
Proof.
  intros Hs Hmem. unfold entry_name, entry_time, offset_name, offset_time.
  rewrite Hs. split.
  - apply read_bytes_ext. intros x Hx. apply Hmem. lia.
  - apply load64_ext. intros x Hx. apply Hmem. lia.
Qed.

(** A run of appends that fits the remaining capacity: every call returns
    success, the count grows by the number of calls, the [i]-th label lands
    in slot [record_count + i] with the [i]-th clock reading, and nothing
    but the count and these slots is written. *)
Lemma log_sequence (names : list string) :
  forall st,
    active st -> u32 (capacity st) ->
    record_count st + Z.of_nat (List.length names) <= capacity st ->
    let st' := run (log_calls names) st in
    statuses (log_calls names) st =
      repeat BOOT_RECORD_SUCCESS (List.length names)
    /\ gboot_records_config st' = gboot_records_config st
    /\ clock st' = clock st
    /\ ticks st' = (ticks st + List.length names)%nat
    /\ record_count st' = record_count st + Z.of_nat (List.length names)
    /\ (forall x,
          x < stage_addr st + 4 \/ stage_addr st + 8 <= x ->
          x < profile_addr (stage_addr st) (record_count st) \/
          profile_addr (stage_addr st)
            (record_count st + Z.of_nat (List.length names)) <= x ->
          mem st' x = mem st x)
    /\ (forall i name,
          nth_error names i = Some name ->
          entry_name st' (record_count st + Z.of_nat i) = name_field name /\
          entry_time st' (record_count st + Z.of_nat i) =
            wrap64 (clock st (ticks st + i)%nat)).
Proof.
  induction names as [|n rest IH]; intros st Ha Hcap Hfit.
  - cbn [log_calls List.map run statuses List.length repeat].
    rewrite Nat.add_0_r, Z.add_0_r.
    split; [|split; [|split; [|split; [|split; [|split]]]]];
      try reflexivity.
    intros [|i] name Hnth; discriminate Hnth.
  - cbn [List.length] in *. rewrite Nat2Z.inj_succ in *.
    assert (record_count st < capacity st) as Hroom by lia.
    destruct (log_success_effect n st Ha Hcap Hroom)
      as [Hcfg [Hclk [Htick [Hcnt [Hname Htime]]]]].
    destruct (log_frame (Some n) st) as [_ [_ Hframe]].
    pose proof (log_success n st Ha Hroom) as Hres.
    cbn [log_calls List.map run statuses do_call].
    fold (log_calls rest).
    set (st1 := snd (boot_record_log_profile (Some n) st)) in *.
    assert (active st1) as Ha1
      by (unfold active in *; now rewrite Hcfg).
    assert (capacity st1 = capacity st) as Hcap1
      by (unfold capacity; now rewrite Hcfg).
    assert (stage_addr st1 = stage_addr st) as Hst1
      by (unfold stage_addr; now rewrite Hcfg).
    assert (u32 (capacity st1)) as Hu1 by (now rewrite Hcap1).
    assert (record_count st1 + Z.of_nat (List.length rest)
            <= capacity st1) as Hfit1 by lia.
    destruct (IH st1 Ha1 Hu1 Hfit1)
      as [Hst [Hcfg' [Hclk' [Htick' [Hcnt' [Hframe' Hent']]]]]].
    pose proof (record_count_range st) as Hrc. unfold u32 in Hrc.
    assert (forall x,
              x < stage_addr st + 4 \/ stage_addr st + 8 <= x ->
              x < profile_addr (stage_addr st) (record_count st + 1) \/
              profile_addr (stage_addr st)
                (Z.succ (record_count st + Z.of_nat (List.length rest)))
              <= x ->
              mem (run (log_calls rest) st1) x = mem st1 x) as Hlater.
    { intros x Hh Hs. apply Hframe'; rewrite Hst1, ?Hcnt; [exact Hh|].
      unfold profile_addr in *. lia. }
    split; [|split; [|split; [|split; [|split; [|split]]]]].
    + rewrite Hst. unfold st1. rewrite Hres. reflexivity.
    + now rewrite Hcfg'.
    + now rewrite Hclk'.
    + rewrite Htick', Htick. lia.
    + rewrite Hcnt', Hcnt. lia.
    + intros x Hh Hs.
      rewrite Hlater, Hframe; try reflexivity; try assumption;
        unfold profile_addr, offset_profiles,
          sizeof_boot_record_profile_t in *; lia.
    + intros [|i] name Hnth.
      * cbn in Hnth. injection Hnth as <-.
        rewrite Z.add_0_r, Nat.add_0_r.
        destruct (entry_ext st1 (run (log_calls rest) st1)
                    (record_count st)) as [Hn Ht].
        { unfold stage_addr. now rewrite Hcfg'. }
        { intros x Hx. rewrite Hst1 in Hx. apply Hlater;
            unfold profile_addr, offset_profiles,
              sizeof_boot_record_profile_t in *; lia. }
        rewrite Hn, Ht. split; [exact Hname|].
        rewrite Htime. reflexivity.
      * cbn [nth_error] in Hnth.
        destruct (Hent' i name Hnth) as [Hn Ht].
        replace (record_count st + Z.of_nat (S i))
          with (record_count st1 + Z.of_nat i) by lia.
        rewrite Hn, Ht, Hclk, Htick. split; [reflexivity|].
        do 2 f_equal. lia.
Qed.

(** C2. On an active store with room left, [boot_record_log_profile] with a
    label returns success, writes at index [record_count] the label cut to
    at most 23 characters and NUL-terminated together with the clock
    reading, and adds exactly one to [record_count]; successive calls that
    fit the capacity fill consecutive slots in call order. *)
Theorem log_profile_appends (name : string) (st : machine) :
  active st -> u32 (capacity st) -> record_count st < capacity st ->
  (fst (boot_record_log_profile (Some name) st) = BOOT_RECORD_SUCCESS
   /\ entry_name (snd (boot_record_log_profile (Some name) st))
        (record_count st) =
      truncated name ++ repeat 0 (24 - List.length (truncated name))
   /\ (List.length (truncated name) <= 23)%nat
   /\ truncated name = firstn 23 (c_string (chars_of name))
   /\ entry_time (snd (boot_record_log_profile (Some name) st))
        (record_count st) = clock_now st
   /\ record_count (snd (boot_record_log_profile (Some name) st)) =
      record_count st + 1)
  /\ (forall names,
        record_count st + Z.of_nat (List.length names) <= capacity st ->
        statuses (log_calls names) st =
          repeat BOOT_RECORD_SUCCESS (List.length names)
        /\ record_count (run (log_calls names) st) =
           record_count st + Z.of_nat (List.length names)
        /\ (forall i label,
              nth_error names i = Some label ->
              entry_name (run (log_calls names) st)
                (record_count st + Z.of_nat i) = name_field label /\
              entry_time (run (log_calls names) st)
                (record_count st + Z.of_nat i) =
                wrap64 (clock st (ticks st + i)%nat))).
Proof.
  intros Ha Hcap Hroom. split.
  - destruct (log_success_effect name st Ha Hcap Hroom)
      as [_ [_ [_ [Hcnt [Hname Htime]]]]].
    split; [now rewrite (log_success name st Ha Hroom)|].
    split; [exact Hname|]. split; [apply truncated_length|].
    split; [reflexivity|]. split; assumption.
  - intros names Hfit.
    destruct (log_sequence names st Ha Hcap Hfit)
      as [Hst [_ [_ [_ [Hcnt [_ Hent]]]]]].
    split; [exact Hst | split; [exact Hcnt | exact Hent]].
Qed.

Lemma log_profile_appends_witness :
  let st := snd (boot_record_init 1 4096 1024
                   (power_on blank stopped_clock)) in
  let long := "a_name_that_is_way_too_long_for_24_bytes"%string in
  let names := ["A"; "B"]%string in
  active st /\ u32 (capacity st) /\ record_count st < capacity st /\
  record_count st + Z.of_nat (List.length names) <= capacity st /\
  fst (boot_record_log_profile (Some long) st) = BOOT_RECORD_SUCCESS /\
  entry_name (snd (boot_record_log_profile (Some long) st)) 0 =
    chars_of "a_name_that_is_way_too_" ++ [0] /\
  record_count (run (log_calls names) st) = 2 /\
  entry_name (run (log_calls names) st) 1 = name_field "B".
Proof.
  intros st long names.
  assert (record_count st = 0) as Hrc by reflexivity.
  assert (capacity st = 31) as Hc by reflexivity.
  assert (active st) as Ha by (split; vm_compute; discriminate).
  assert (u32 (capacity st)) as Hcap by (rewrite Hc; unfold u32; lia).
  assert (record_count st < capacity st) as Hroom
    by (rewrite Hrc, Hc; lia).
  assert (record_count st + Z.of_nat (List.length names) <= capacity st)
    as Hfit by (rewrite Hrc, Hc; cbn; lia).
  destruct (log_profile_appends long st Ha Hcap Hroom)
    as [[Hok [Hname _]] Hseq].
  destruct (Hseq names Hfit) as [_ [Hcnt Hent]].
  split; [exact Ha | split; [exact Hcap | split; [exact Hroom |
    split; [exact Hfit | split; [exact Hok | split; [| split]]]]]].
  - rewrite Hrc in Hname. exact Hname.
  - rewrite Hrc in Hcnt. exact Hcnt.
  - destruct (Hent 1%nat "B"%string eq_refl) as [HB _].
    rewrite Hrc in HB. exact HB.
Defined.

(** C10. Whatever it returns, [boot_record_log_profile] leaves the
    configuration, the bytes of [record_id] and [start_time] and the bytes
    of every slot below [record_count] as they were; the only addresses it
    may write are the [record_count] field and the slot at index
    [record_count], and a call that does not succeed writes nothing. *)
Theorem log_frame_effect (name : option string) (st : machine) :
  gboot_records_config (snd (boot_record_log_profile name st)) =
    gboot_records_config st
  /\ read_bytes (mem (snd (boot_record_log_profile name st)))
       (stage_addr st + offset_record_id) 4 =
     read_bytes (mem st) (stage_addr st + offset_record_id) 4
  /\ read_bytes (mem (snd (boot_record_log_profile name st)))
       (stage_addr st + offset_start_time) 8 =
     read_bytes (mem st) (stage_addr st + offset_start_time) 8
  /\ (forall i, 0 <= i < record_count st ->
        read_bytes (mem (snd (boot_record_log_profile name st)))
          (profile_addr (stage_addr st) i) 32 =
        read_bytes (mem st) (profile_addr (stage_addr st) i) 32)
  /\ (forall x,
        x < stage_addr st + offset_record_count \/
        stage_addr st + offset_record_count + 4 <= x ->
        x < profile_addr (stage_addr st) (record_count st) \/
        profile_addr (stage_addr st) (record_count st)
        + sizeof_boot_record_profile_t <= x ->
        mem (snd (boot_record_log_profile name st)) x = mem st x)
  /\ (fst (boot_record_log_profile name st) <> BOOT_RECORD_SUCCESS ->
      snd (boot_record_log_profile name st) = st).
Proof.
  destruct (log_frame name st) as [Hcfg [_ Hmem]].
  destruct (log_preserves name st) as [Hid [Hstart Hent]].
  assert (stage_addr (snd (boot_record_log_profile name st)) =
          stage_addr st) as Hst by (unfold stage_addr; now rewrite Hcfg).
  rewrite Hst in *.
  split; [exact Hcfg | split; [exact Hid | split; [exact Hstart |
    split; [exact Hent | split]]]].
  - intros x Hh Hs. unfold offset_record_count,
      sizeof_boot_record_profile_t in *. apply Hmem; lia.
  - intros Hfail. destruct name as [name|]; [|reflexivity].
    destruct (log_cases st) as [Hu | [[Ha Hfull] | [Ha Hroom]]].
    + now rewrite (log_uninitialized _ st Hu).
    + now rewrite (log_overflow name st Ha Hfull).
    + rewrite (log_success name st Ha Hroom) in Hfail.
      now contradiction Hfail.
Qed.

Lemma log_frame_effect_witness :
  let st := run [Init 1 4096 1024; Log (Some "A"%string)]
              (power_on blank stopped_clock) in
  let st' := snd (boot_record_log_profile (Some "B"%string) st) in
  0 <= 0 < record_count st /\
  read_bytes (mem st') (profile_addr (stage_addr st) 0) 32 =
  read_bytes (mem st) (profile_addr (stage_addr st) 0) 32.
Proof.
  intros st st'.
  assert (0 <= 0 < record_count st) as Hi
    by (change (record_count st) with 1; lia).
  split; [exact Hi |].
  destruct (log_frame_effect (Some "B"%string) st)
    as [_ [_ [_ [Hent _]]]].
  apply (Hent 0 Hi).
Defined.

(* ========================================================================== *)
(** * Scenarios of the specification                                           *)
(* ========================================================================== *)

Example truncation_not_rejection :
  truncated "a_name_that_is_way_too_long_for_24_bytes" =
  chars_of "a_name_that_is_way_too_".
Proof. reflexivity. Qed.

Example overflow_then_reinit :
  let st := power_on blank stopped_clock in
  statuses [Init 1 4096 48; Log (Some "a"%string); Log (Some "b"%string);
            Log (Some "c"%string); Init 1 4096 48; Log (Some "d"%string)] st
  = [BOOT_RECORD_SUCCESS; BOOT_RECORD_SUCCESS; BOOT_RECORD_ERR_OVERFLOW;
     BOOT_RECORD_ERR_OVERFLOW; BOOT_RECORD_SUCCESS; BOOT_RECORD_SUCCESS].
Proof. vm_compute. reflexivity. Qed.

Example init_status_codes :
  let st := power_on blank stopped_clock in
  List.map status_code
    (statuses [Init 1 4096 16; Init 1 4096 47; Init 1 NULL 1024;
               Log None; Log (Some "x"%string); Init 1 4096 48] st)
  = [-1; -1; -1; -1; -1; 0].
Proof. vm_compute. reflexivity. Qed.

Example init_1024 :
  let r := boot_record_init 1 4096 1024 (power_on blank stopped_clock) in
  fst r = BOOT_RECORD_SUCCESS /\ capacity (snd r) = 31 /\
  record_count (snd r) = 0 /\ record_id (snd r) = 1 /\
  start_time (snd r) = 1000.
Proof. vm_compute. repeat split. Qed.

Example log_A_B :
  let st := run [Init 1 4096 1024; Log (Some "A"%string);
                 Log (Some "B"%string)] (power_on blank stopped_clock) in
  record_count st = 2 /\
  entry_name st 0 = 65 :: repeat 0 23 /\ entry_time st 0 = 1001 /\
  entry_name st 1 = 66 :: repeat 0 23 /\ entry_time st 1 = 1002.
Proof. vm_compute. repeat split. Qed.

(* ========================================================================== *)
(** * boot_record_init on arbitrary arguments                                  *)
(* ========================================================================== *)

Lemma capacity_fits (size : Z) :
  48 <= size ->
  32 * wrap32 (wrap_size_t (size - sizeof_boot_stage_record_t)
               / sizeof_boot_record_profile_t) <= size - 16.
Proof.
  intros Hs.
  unfold wrap32, wrap_size_t, sizeof_boot_stage_record_t,
    sizeof_boot_record_profile_t.
  pose proof (Z.mod_le (size - 16) (2 ^ 32)) as H1.
  pose proof (Z.mod_pos_bound (size - 16) (2 ^ 32)) as H2.
  set (r := (size - 16) mod 2 ^ 32) in *.
  pose proof (Z.mul_div_le r 32) as H3.
  pose proof (Z.div_pos r 32) as H4.
  pose proof (Z.mod_le (r / 32) (2 ^ 32)) as H5.
  lia.
Qed.

(** The two shapes of a result of [boot_record_init]: rejected by the guard
    with nothing changed, or past the guard with the configuration bound to
    the buffer, the count in the buffer zero and nothing written outside
    the buffer. *)
Lemma init_shape (stage_id buf size : Z) (st : machine) :
  boot_record_init stage_id buf size st =
    (BOOT_RECORD_ERR_INVALID_PARAMS, st)
  \/ (buf <> NULL /\ 48 <= size /\
      exists cap m',
        boot_record_init stage_id buf size st =
          (if cap =? 0 then BOOT_RECORD_ERR_INSUFFICIENT_MEM
           else BOOT_RECORD_SUCCESS,
           {| gboot_records_config :=
                {| memory_base := buf; memory_size := size;
                   possible_records := cap; records := buf |};
              mem := m';
              clock := clock st;
              ticks := if cap =? 0 then ticks st else S (ticks st) |})
        /\ u32 cap /\ 32 * cap <= size - 16
        /\ (forall x, outside x buf size -> m' x = mem st x)
        /\ load32 m' (buf + 4) = 0).
Proof.
  unfold boot_record_init.
  change (sizeof_boot_stage_record_t + sizeof_boot_record_profile_t)
    with 48.
  destruct (Z.eqb_spec buf NULL) as [|Hb]; [now left|].
  destruct (Z.ltb_spec size 48) as [|Hsz]; [now left|].
  right. split; [exact Hb | split; [exact Hsz|]].
  cbn [orb]. simpl_state.
  pose proof (capacity_fits size Hsz) as Hfit.
  pose proof (wrap32_range
                (wrap_size_t (size - sizeof_boot_stage_record_t)
                 / sizeof_boot_record_profile_t)) as Hcap.
  set (cap := wrap32 _) in *.
  exists cap.
  destruct (Z.eqb_spec cap 0) as [Hz | Hnz].
  - exists (memset (mem st) buf 0 size).
    split; [reflexivity | split; [exact Hcap | split; [exact Hfit|]]].
    split.
    + intros x Hx. apply memset_outside. exact Hx.
    + apply load32_memset_zero; lia.
  - unfold boot_record_get_timestamp. simpl_state.
    eexists. split; [reflexivity | split; [exact Hcap | split;
      [exact Hfit|]]].
    split.
    + intros x Hx. unfold offset_record_id, offset_record_count,
        offset_start_time. apply fresh_outside; assumption.
    + apply fresh_record_count.
Qed.

(* ========================================================================== *)
(** * Reads of the clock                                                       *)
(* ========================================================================== *)

Lemma do_call_clock (c : call) (st : machine) :
  clock (snd (do_call c st)) = clock st
  /\ ticks (snd (do_call c st)) =
     if is_success (fst (do_call c st)) then S (ticks st) else ticks st.
Proof.
  destruct c as [stage_id buf size | [name|]]; cbn [do_call].
  - destruct (init_shape stage_id buf size st)
      as [-> | [_ [_ [cap [m' [-> _]]]]]]; [now split|].
    cbn [fst snd clock ticks]. destruct (cap =? 0); now split.
  - destruct (log_cases st) as [Hu | [[Ha Hfull] | [Ha Hroom]]].
    + rewrite (log_uninitialized _ st Hu). now split.
    + rewrite (log_overflow name st Ha Hfull). now split.
    + rewrite (log_success name st Ha Hroom). now split.
  - now split.
Qed.

(** X8. Over any sequence of calls the clock is read once by each call
    that returns success and by no other call. *)
Theorem clock_read_once_per_success (cs : list call) :
  forall st,
    clock (run cs st) = clock st
    /\ ticks (run cs st) = (ticks st + successes cs st)%nat.
Proof.
  unfold successes.
  induction cs as [|c rest IH]; intros st.
  - cbn. split; [reflexivity | lia].
  - cbn [run statuses List.filter].
    destruct (do_call_clock c st) as [Hclk Htick].
    destruct (IH (snd (do_call c st))) as [Hclk' Htick'].
    rewrite Hclk', Htick', Hclk, Htick.
    split; [reflexivity|].
    destruct (is_success (fst (do_call c st))); cbn [List.length]; lia.
Qed.

(* ========================================================================== *)
(** * Writes stay inside the buffer                                            *)
(* ========================================================================== *)

Lemma power_on_layout (m : memory) (clk : nat -> Z) :
  layout_inv (power_on m clk).
Proof. intros [Hr _]. now contradiction Hr. Qed.

Lemma init_layout (stage_id buf size : Z) (st : machine) :
  layout_inv st -> layout_inv (snd (boot_record_init stage_id buf size st)).
Proof.
  intros Hinv.
  destruct (init_shape stage_id buf size st)
    as [-> | [_ [_ [cap [m' [-> [_ [Hfit _]]]]]]]]; [exact Hinv|].
  intros _. unfold capacity, sizeof_boot_stage_record_t,
    sizeof_boot_record_profile_t.
  cbn [snd gboot_records_config records memory_base memory_size
       possible_records].
  split; [reflexivity | lia].
Qed.

Lemma log_layout (name : option string) (st : machine) :
  layout_inv st -> layout_inv (snd (boot_record_log_profile name st)).
Proof.
  intros Hinv. destruct (log_frame name st) as [Hcfg _].
  unfold layout_inv, active, capacity in *. now rewrite Hcfg.
Qed.

Lemma run_layout (cs : list call) :
  forall st, layout_inv st -> layout_inv (run cs st).
Proof.
  induction cs as [|c rest IH]; intros st Hinv; [exact Hinv|].
  cbn [run]. apply IH.
  destruct c as [stage_id buf size | name]; cbn [do_call].
  - now apply init_layout.
  - now apply log_layout.
Qed.

Lemma log_within_buffer (name : option string) (st : machine) (x : Z) :
  store_inv st -> layout_inv st ->
  outside x (memory_base (gboot_records_config st))
    (memory_size (gboot_records_config st)) ->
  mem (snd (boot_record_log_profile name st)) x = mem st x.
Proof.
  intros [Hcap Hcnt] Hlay Hx.
  destruct name as [name|]; [|reflexivity].
  destruct (log_cases st) as [Hu | [[Ha Hfull] | [Ha Hroom]]].
  - now rewrite (log_uninitialized _ st Hu).
  - now rewrite (log_overflow name st Ha Hfull).
  - destruct (log_frame (Some name) st) as [_ [_ Hmem]].
    destruct (Hlay Ha) as [Hbase Hfit].
    pose proof (record_count_range st) as Hrc.
    unfold outside, stage_addr, capacity, profile_addr, offset_profiles,
      sizeof_boot_stage_record_t, sizeof_boot_record_profile_t, u32 in *.
    rewrite <- Hbase in Hx. apply Hmem; lia.
Qed.

(** X2. In every state reached from power-on, a call to
    [boot_record_log_profile] writes no byte outside the buffer the store
    is bound to, the [memory_size] bytes from [memory_base] on. *)
Theorem log_writes_inside_buffer
  (m : memory) (clk : nat -> Z) (cs : list call)
  (name : option string) (x : Z) :
  outside x
    (memory_base (gboot_records_config (run cs (power_on m clk))))
    (memory_size (gboot_records_config (run cs (power_on m clk)))) ->
  mem (snd (boot_record_log_profile name (run cs (power_on m clk)))) x =
  mem (run cs (power_on m clk)) x.
Proof.
  apply log_within_buffer.
  - apply run_inv, power_on_inv.
  - apply run_layout, power_on_layout.
Qed.

Lemma log_writes_inside_buffer_witness :
  let cs := [Init 1 4096 48; Log (Some "a"%string)] in
  let st := run cs (power_on blank stopped_clock) in
  outside 4144 (memory_base (gboot_records_config st))
    (memory_size (gboot_records_config st)) /\
  mem (snd (boot_record_log_profile (Some "b"%string) st)) 4144 =
  mem st 4144.
Proof.
  intros cs st.
  assert (outside 4144 (memory_base (gboot_records_config st))
            (memory_size (gboot_records_config st))) as Hx
    by (right; vm_compute; discriminate).
  split; [exact Hx |].
  apply (log_writes_inside_buffer blank stopped_clock cs
           (Some "b"%string) 4144 Hx).
Defined.

Lemma run_untouched (cs : list call) (x : Z) :
  (forall stage_id buf size,
     In (Init stage_id buf size) cs -> outside x buf size) ->
  forall st,
    store_inv st -> layout_inv st -> untouched st x ->
    mem (run cs st) x = mem st x.
Proof.
  induction cs as [|c rest IH]; intros Hout st Hinv Hlay Hun;
    [reflexivity|].
  cbn [run].
  assert (forall stage_id buf size,
            In (Init stage_id buf size) rest -> outside x buf size)
    as Hrest by (intros sid b n Hin; apply (Hout sid); now right).
  specialize (IH Hrest).
  destruct c as [stage_id buf size | name]; cbn [do_call].
  - pose proof (init_inv stage_id buf size st Hinv) as Hinv'.
    pose proof (init_layout stage_id buf size st Hlay) as Hlay'.
    assert (outside x buf size) as Hx by (apply (Hout stage_id); now left).
    destruct (init_shape stage_id buf size st)
      as [Heq | [_ [_ [cap [m' [Heq [_ [_ [Hm' _]]]]]]]]];
      rewrite Heq in *; cbn [snd] in *.
    + now apply IH.
    + rewrite IH; try assumption.
      * cbn [mem]. now apply Hm'.
      * intros _. exact Hx.
  - pose proof (log_inv name st Hinv) as Hinv'.
    pose proof (log_layout name st Hlay) as Hlay'.
    destruct (log_frame name st) as [Hcfg _].
    assert (mem (snd (boot_record_log_profile name st)) x = mem st x)
      as Hsame.
    { destruct name as [name|]; [|reflexivity].
      destruct (log_cases st) as [Hu | [[Ha Hfull] | [Ha Hroom]]].
      - now rewrite (log_uninitialized _ st Hu).
      - now rewrite (log_overflow name st Ha Hfull).
      - apply log_within_buffer; try assumption. now apply Hun. }
    rewrite IH; try assumption.
    unfold untouched, active in *. now rewrite Hcfg.
Qed.

(** X3. Starting from power-on, a byte that lies in none of the buffers
    passed to [boot_record_init] is never modified, whatever calls are made
    and whatever they return. *)
Theorem outside_buffers_never_written
  (m : memory) (clk : nat -> Z) (cs : list call) (x : Z) :
  (forall stage_id buf size,
     In (Init stage_id buf size) cs -> outside x buf size) ->
  mem (run cs (power_on m clk)) x = m x.
Proof.
  intros Hout.
  rewrite (run_untouched cs x Hout (power_on m clk)).
  - reflexivity.
  - apply power_on_inv.
  - apply power_on_layout.
  - intros [Hr _]. now contradiction Hr.
Qed.

Lemma outside_buffers_never_written_witness :
  let cs := [Init 1 4096 48; Log (Some "a"%string); Init 2 8192 80;
             Log (Some "b"%string)] in
  (forall stage_id buf size,
     In (Init stage_id buf size) cs -> outside 4144 buf size) /\
  mem (run cs (power_on blank stopped_clock)) 4144 = blank 4144.
Proof.
  intros cs.
  assert (forall stage_id buf size,
            In (Init stage_id buf size) cs -> outside 4144 buf size)
    as Hout.
  { intros stage_id buf size [H | [H | [H | [H | []]]]];
      try discriminate H; injection H as <- <- <-; unfold outside; lia. }
  split; [exact Hout |].
  apply (outside_buffers_never_written blank stopped_clock cs 4144 Hout).
Defined.

(** X4. After a successful [boot_record_init] the header and the
    [possible_records] slots fit the buffer, every slot below the capacity
    lies inside it, and one more slot would not fit. *)
Theorem init_slots_fit (stage_id buf size : Z) (st : machine) :
  u32 size ->
  fst (boot_record_init stage_id buf size st) = BOOT_RECORD_SUCCESS ->
  16 + 32 * capacity (snd (boot_record_init stage_id buf size st)) <= size
  /\ size <
     16 + 32 * (capacity (snd (boot_record_init stage_id buf size st)) + 1)
  /\ (forall i,
        0 <= i < capacity (snd (boot_record_init stage_id buf size st)) ->
        buf + 16 <= profile_addr buf i /\
        profile_addr buf i + 32 <= buf + size).
Proof.
  intros Hs Hok.
  destruct (init_cases stage_id buf size st Hs) as [Hbad | [Hb Hsz]].
  { rewrite (init_invalid stage_id buf size st Hbad) in Hok. discriminate. }
  rewrite (init_success stage_id buf size st Hb Hsz).
  unfold capacity. cbn [snd gboot_records_config possible_records].
  pose proof (Z.mul_div_le (size - 16) 32) as Hlo.
  pose proof (Z.mul_succ_div_gt (size - 16) 32) as Hhi.
  unfold profile_addr, offset_profiles, sizeof_boot_record_profile_t.
  repeat split; try lia.
Qed.

Lemma init_slots_fit_witness :
  u32 100 /\
  fst (boot_record_init 1 4096 100 (power_on blank stopped_clock)) =
    BOOT_RECORD_SUCCESS /\
  16 + 32 * capacity (snd (boot_record_init 1 4096 100
                             (power_on blank stopped_clock))) <= 100.
Proof.
  assert (u32 100) as Hs by (unfold u32; lia).
  assert (fst (boot_record_init 1 4096 100 (power_on blank stopped_clock))
          = BOOT_RECORD_SUCCESS) as Hok by reflexivity.
  split; [exact Hs | split; [exact Hok |]].
  apply (init_slots_fit 1 4096 100 (power_on blank stopped_clock) Hs Hok).
Defined.

(* ========================================================================== *)
(** * The buffer against the list recorder                                     *)
(* ========================================================================== *)

Lemma clock_now_wrapped (st : machine) : wrap64 (clock_now st) = clock_now st.
Proof. unfold clock_now, wrap64. apply Z.mod_mod. lia. Qed.

Lemma init_refines (stage_id buf size : Z) (st : machine)
  (a : option recorder) :
  u32 stage_id -> u32 size -> represents st a ->
  fst (boot_record_init stage_id buf size st) =
    fst (abs_call (Init stage_id buf size) (clock_now st) a)
  /\ represents (snd (boot_record_init stage_id buf size st))
       (snd (abs_call (Init stage_id buf size) (clock_now st) a)).
Proof.
  intros Hid Hs Hrep. cbn [abs_call].
  destruct (init_cases stage_id buf size st Hs) as [Hbad | [Hb Hsz]].
  - rewrite (init_invalid stage_id buf size st Hbad).
    destruct (Z.eqb_spec buf NULL); destruct (Z.ltb_spec size 48);
      cbn [orb fst snd]; try (split; [reflexivity | exact Hrep]).
    lia.
  - rewrite (init_success stage_id buf size st Hb Hsz).
    destruct (Z.eqb_spec buf NULL); [contradiction|].
    destruct (Z.ltb_spec size 48); [lia|].
    cbn [orb fst snd]. split; [reflexivity|].
    destruct (capacity_formula size Hsz) as [_ Hq].
    unfold represents, active, capacity, record_id, start_time,
      record_count, stage_addr, offset_record_id, offset_record_count,
      offset_start_time.
    cbn [gboot_records_config mem records memory_base possible_records
         rec_id rec_start rec_capacity rec_entries List.length].
    rewrite fresh_record_id, fresh_record_count, fresh_start_time,
      clock_now_wrapped.
    split; [split; assumption|]. split; [reflexivity|].
    split; [unfold u32; lia|].
    split; [apply Z.mod_small; exact Hid|].
    split; [reflexivity|]. split; [reflexivity|].
    split; [change (Z.of_nat 0) with 0; lia|].
    intros [|i] name t Hnth; discriminate Hnth.
Qed.

Lemma log_refines (name : option string) (st : machine)
  (a : option recorder) :
  represents st a ->
  fst (boot_record_log_profile name st) =
    fst (abs_call (Log name) (clock_now st) a)
  /\ represents (snd (boot_record_log_profile name st))
       (snd (abs_call (Log name) (clock_now st) a)).
Proof.
  intros Hrep. cbn [abs_call].
  destruct name as [name|]; [|split; [reflexivity | exact Hrep]].
  destruct a as [r|].
  2:{ rewrite (log_uninitialized _ st Hrep).
      split; [reflexivity | exact Hrep]. }
  pose proof Hrep as Hrep0.
  destruct Hrep as [Ha [Hcap [Hu [Hid [Hstart [Hcnt [Hle Hent]]]]]]].
  destruct (Z.leb_spec (rec_capacity r)
              (Z.of_nat (List.length (rec_entries r)))) as [Hfull | Hroom].
  - rewrite (log_overflow name st Ha) by lia.
    split; [reflexivity | exact Hrep0].
  - assert (record_count st < capacity st) as Hroom' by lia.
    assert (u32 (capacity st)) as Hu' by (now rewrite Hcap).
    destruct (log_success_effect name st Ha Hu' Hroom')
      as [Hcfg [_ [_ [Hcnt' [Hname Htime]]]]].
    destruct (log_preserves (Some name) st) as [Hpid [Hpstart _]].
    destruct (log_frame (Some name) st) as [_ [_ Hmem]].
    pose proof (log_success name st Ha Hroom') as Hres.
    set (st' := snd (boot_record_log_profile (Some name) st)) in *.
    assert (stage_addr st' = stage_addr st) as Hst
      by (unfold stage_addr; now rewrite Hcfg).
    split; [now rewrite Hres|].
    cbn [snd represents rec_id rec_start rec_capacity rec_entries].
    rewrite length_app. cbn [List.length].
    split; [unfold active in *; now rewrite Hcfg|].
    split; [unfold capacity in *; now rewrite Hcfg|].
    split; [exact Hu|].
    split; [unfold record_id, load32 in *; now rewrite Hpid|].
    split; [unfold start_time, load64 in *; now rewrite Hpstart|].
    split; [lia|]. split; [lia|].
    intros i label t Hnth.
    destruct (Nat.lt_ge_cases i (List.length (rec_entries r)))
      as [Hlt | Hge].
    + rewrite nth_error_app1 in Hnth by exact Hlt.
      destruct (Hent i label t Hnth) as [Hn Ht].
      destruct (entry_ext st st' (Z.of_nat i) Hst) as [Hn' Ht'].
      { intros x Hx. apply Hmem;
          unfold profile_addr, offset_profiles,
            sizeof_boot_record_profile_t in *; lia. }
      rewrite Hn', Ht'. split; assumption.
    + rewrite nth_error_app2 in Hnth by exact Hge.
      destruct (i - List.length (rec_entries r))%nat as [|k] eqn:Hk.
      2:{ destruct k; discriminate Hnth. }
      cbn [nth_error] in Hnth. injection Hnth as <- <-.
      replace (Z.of_nat i) with (record_count st) by lia.
      split; assumption.
Qed.

Lemma run_refines (cs : list call) :
  Forall wf_call cs ->
  forall st a,
    represents st a ->
    statuses cs st = fst (abs_run cs (clock st) (ticks st) a)
    /\ represents (run cs st) (snd (abs_run cs (clock st) (ticks st) a)).
Proof.
  induction 1 as [|c rest Hc _ IH]; intros st a Hrep.
  - split; [reflexivity | exact Hrep].
  - cbn [statuses run abs_run fst snd].
    fold (clock_now st).
    assert (fst (do_call c st) = fst (abs_call c (clock_now st) a)
            /\ represents (snd (do_call c st))
                 (snd (abs_call c (clock_now st) a))) as [Hst Hrep'].
    { destruct c as [stage_id buf size | name]; cbn [do_call].
      - destruct Hc as [Hid Hs]. now apply init_refines.
      - now apply log_refines. }
    destruct (do_call_clock c st) as [Hclk Htick].
    destruct (IH _ _ Hrep') as [Hsts Hfinal].
    rewrite Hclk, Htick, Hst in *.
    split; [now rewrite Hsts | exact Hfinal].
Qed.

(** X1. For every sequence of calls with [uint32_t] arguments made after
    power-on, the statuses returned are those of the list recorder, and the
    buffer reads back as that recorder: bound exactly when the recorder
    exists, with its identifier, start time and capacity, [record_count]
    equal to the number of entries, and slot [i] holding the [i]-th label
    (cut to 23 characters, NUL-padded) and its time. *)
Theorem buffer_refines_recorder
  (m : memory) (clk : nat -> Z) (cs : list call) :
  Forall wf_call cs ->
  statuses cs (power_on m clk) = fst (abs_run cs clk 0 None)
  /\ represents (run cs (power_on m clk)) (snd (abs_run cs clk 0 None)).
Proof.
  intros Hwf.
  apply (run_refines cs Hwf (power_on m clk) None).
  left. reflexivity.
Qed.

Lemma buffer_refines_recorder_witness :
  let cs := [Init 7 4096 80; Log (Some "A"%string); Log None;
             Log (Some "B"%string); Log (Some "C"%string)] in
  Forall wf_call cs /\
  statuses cs (power_on blank stopped_clock) =
    [BOOT_RECORD_SUCCESS; BOOT_RECORD_SUCCESS;
     BOOT_RECORD_ERR_INVALID_PARAMS; BOOT_RECORD_SUCCESS;
     BOOT_RECORD_ERR_OVERFLOW] /\
  represents (run cs (power_on blank stopped_clock))
    (Some {| rec_id := 7; rec_start := 1000; rec_capacity := 2;
             rec_entries := [("A"%string, 1001); ("B"%string, 1002)] |}).
Proof.
  intros cs.
  assert (Forall wf_call cs) as Hwf
    by (repeat constructor; unfold u32; lia).
  split; [exact Hwf |].
  exact (buffer_refines_recorder blank stopped_clock cs Hwf).
Defined.

(* ========================================================================== *)
(** * Reading a label back                                                     *)
(* ========================================================================== *)

Lemma c_string_no_nul (src : list Z) : ~ In 0 (c_string src).
Proof.
  induction src as [|c rest IH]; cbn [c_string]; [easy|].
  destruct (Z.eqb_spec c 0); [easy|].
  intros [Hc | Hin]; [congruence | now apply IH].
Qed.

Lemma c_string_padded (l : list Z) (k : nat) :
  ~ In 0 l -> c_string (l ++ repeat 0 k) = l.
Proof.
  induction l as [|c rest IH]; intros Hnz.
  - destruct k; reflexivity.
  - cbn [app c_string].
    destruct (Z.eqb_spec c 0) as [-> | _].
    + exfalso. apply Hnz. now left.
    + f_equal. apply IH. intros Hin. apply Hnz. now right.
Qed.

Lemma c_string_fixed (l : list Z) : ~ In 0 l -> c_string l = l.
Proof.
  intros Hnz. rewrite <- (app_nil_r l) at 1.
  apply (c_string_padded l 0 Hnz).
Qed.

Lemma truncated_no_nul (name : string) : ~ In 0 (truncated name).
Proof.
  unfold truncated. intros Hin.
  apply (c_string_no_nul (chars_of name)).
  rewrite <- (firstn_skipn 23). apply in_or_app. now left.
Qed.

Lemma chars_of_length (name : string) :
  List.length (chars_of name) = String.length name.
Proof.
  unfold chars_of. rewrite length_map.
  induction name as [|c rest IH]; cbn; [reflexivity | now rewrite IH].
Qed.

(** X5. The name field written by a successful append is a C string: its
    last byte is NUL, and reading it up to the first NUL gives the label
    cut to 23 characters; a label of at most 23 characters without a NUL
    character reads back unchanged. *)
Theorem label_round_trip (name : string) (st : machine) :
  active st -> u32 (capacity st) -> record_count st < capacity st ->
  c_string (entry_name (snd (boot_record_log_profile (Some name) st))
              (record_count st)) = truncated name
  /\ nth 23 (entry_name (snd (boot_record_log_profile (Some name) st))
               (record_count st)) 1 = 0
  /\ ((String.length name <= 23)%nat -> ~ In 0 (chars_of name) ->
      c_string (entry_name (snd (boot_record_log_profile (Some name) st))
                  (record_count st)) = chars_of name).
Proof.
  intros Ha Hcap Hroom.
  destruct (log_success_effect name st Ha Hcap Hroom)
    as [_ [_ [_ [_ [-> _]]]]].
  pose proof (truncated_length name) as Hlen.
  assert (c_string (name_field name) = truncated name) as Hback
    by (apply c_string_padded, truncated_no_nul).
  split; [exact Hback | split].
  - unfold name_field. rewrite app_nth2 by lia.
    apply nth_repeat_lt. lia.
  - intros Hshort Hnz. rewrite Hback. unfold truncated.
    rewrite (c_string_fixed _ Hnz).
    apply firstn_all2. rewrite chars_of_length. exact Hshort.
Qed.

Lemma label_round_trip_witness :
  let st := snd (boot_record_init 1 4096 1024
                   (power_on blank stopped_clock)) in
  let name := "Clocks_Initialized"%string in
  active st /\ u32 (capacity st) /\ record_count st < capacity st /\
  (String.length name <= 23)%nat /\ ~ In 0 (chars_of name) /\
  c_string (entry_name (snd (boot_record_log_profile (Some name) st))
              (record_count st)) = chars_of name.
Proof.
  intros st name.
  assert (record_count st = 0) as Hrc by reflexivity.
  assert (capacity st = 31) as Hc by reflexivity.
  assert (active st) as Ha by (split; vm_compute; discriminate).
  assert (u32 (capacity st)) as Hcap by (rewrite Hc; unfold u32; lia).
  assert (record_count st < capacity st) as Hroom
    by (rewrite Hrc, Hc; lia).
  assert (String.length name <= 23)%nat as Hshort by (cbn; lia).
  assert (~ In 0 (chars_of name)) as Hnz.
  { vm_compute. intros H.
    repeat (destruct H as [H | H]; [discriminate H|]). exact H. }
  split; [exact Ha | split; [exact Hcap | split; [exact Hroom |
    split; [exact Hshort | split; [exact Hnz |]]]]].
  destruct (label_round_trip name st Ha Hcap Hroom) as [_ [_ Hsame]].
  exact (Hsame Hshort Hnz).
Defined.

(* ========================================================================== *)
(** * Filling the store                                                        *)
(* ========================================================================== *)

Lemma statuses_app (cs1 cs2 : list call) :
  forall st,
    statuses (cs1 ++ cs2) st = statuses cs1 st ++ statuses cs2 (run cs1 st).
Proof.
  induction cs1 as [|c rest IH]; intros st; [reflexivity|].
  cbn [app statuses run]. now rewrite IH.
Qed.

Lemma run_app (cs1 cs2 : list call) :
  forall st, run (cs1 ++ cs2) st = run cs2 (run cs1 st).
Proof.
  induction cs1 as [|c rest IH]; intros st; [reflexivity|].
  cbn [app run]. now rewrite IH.
Qed.

Lemma full_statuses (names : list string) (st : machine) :
  active st -> capacity st <= record_count st ->
  statuses (log_calls names) st =
    repeat BOOT_RECORD_ERR_OVERFLOW (List.length names)
  /\ run (log_calls names) st = st.
Proof.
  intros Ha Hfull.
  induction names as [|n rest [IHs IHr]]; [split; reflexivity|].
  cbn [log_calls List.map statuses run do_call List.length repeat].
  fold (log_calls rest).
  rewrite (log_overflow n st Ha Hfull). cbn [fst snd].
  now rewrite IHs, IHr.
Qed.

Lemma fill_then_overflow (a b : list string) (st : machine) :
  active st -> u32 (capacity st) ->
  record_count st + Z.of_nat (List.length a) <= capacity st ->
  b = [] \/ record_count st + Z.of_nat (List.length a) = capacity st ->
  statuses (log_calls (a ++ b)) st =
    repeat BOOT_RECORD_SUCCESS (List.length a)
    ++ repeat BOOT_RECORD_ERR_OVERFLOW (List.length b)
  /\ record_count (run (log_calls (a ++ b)) st) =
     record_count st + Z.of_nat (List.length a).
Proof.
  intros Ha Hcap Hfit Hend.
  destruct (log_sequence a st Ha Hcap Hfit)
    as [Hst [Hcfg [_ [_ [Hcnt _]]]]].
  unfold log_calls. rewrite map_app. fold (log_calls a) (log_calls b).
  rewrite statuses_app, run_app, Hst.
  destruct Hend as [-> | Hfull].
  - split; [reflexivity | exact Hcnt].
  - destruct (full_statuses b (run (log_calls a) st)) as [Hov Hsame].
    + unfold active in *. now rewrite Hcfg.
    + unfold capacity in *. rewrite Hcfg, Hcnt. lia.
    + rewrite Hov, Hsame. split; [reflexivity | exact Hcnt].
Qed.

(** X6. A run of appends on an active store is accepted until the capacity
    is reached and refused with Overflow from then on: with [room] slots
    left, the first [room] calls return success, all later ones Overflow,
    and [record_count] ends at the smaller of the capacity and the old
    count plus the number of calls. *)
Theorem appends_until_full (names : list string) (st : machine) :
  active st -> u32 (capacity st) -> record_count st <= capacity st ->
  statuses (log_calls names) st =
    repeat BOOT_RECORD_SUCCESS
      (Nat.min (List.length names)
         (Z.to_nat (capacity st - record_count st)))
    ++ repeat BOOT_RECORD_ERR_OVERFLOW
         (List.length names - Z.to_nat (capacity st - record_count st))
  /\ record_count (run (log_calls names) st) =
     Z.min (record_count st + Z.of_nat (List.length names)) (capacity st).
Proof.
  intros Ha Hcap Hle.
  set (room := Z.to_nat (capacity st - record_count st)).
  pose proof (length_firstn room names) as Hlf.
  pose proof (length_skipn room names) as Hls.
  destruct (fill_then_overflow (firstn room names) (skipn room names) st
              Ha Hcap) as [Hst Hcnt].
  - rewrite Hlf. lia.
  - destruct (Nat.le_gt_cases (List.length names) room) as [Hshort | Hlong].
    + left. now apply skipn_all2.
    + right. rewrite Hlf. lia.
  - rewrite firstn_skipn, Hlf, Hls in *.
    rewrite Hst, Hcnt, (Nat.min_comm room).
    split; [reflexivity | lia].
Qed.

Lemma appends_until_full_witness :
  let st := snd (boot_record_init 1 4096 80
                   (power_on blank stopped_clock)) in
  let names := ["a"; "b"; "c"; "d"]%string in
  active st /\ u32 (capacity st) /\ record_count st <= capacity st /\
  statuses (log_calls names) st =
    [BOOT_RECORD_SUCCESS; BOOT_RECORD_SUCCESS;
     BOOT_RECORD_ERR_OVERFLOW; BOOT_RECORD_ERR_OVERFLOW] /\
  record_count (run (log_calls names) st) = 2.
Proof.
  intros st names.
  assert (record_count st = 0) as Hrc by reflexivity.
  assert (capacity st = 2) as Hc by reflexivity.
  assert (active st) as Ha by (split; vm_compute; discriminate).
  assert (u32 (capacity st)) as Hcap by (rewrite Hc; unfold u32; lia).
  assert (record_count st <= capacity st) as Hle by (rewrite Hrc, Hc; lia).
  destruct (appends_until_full names st Ha Hcap Hle) as [Hst Hcnt].
  rewrite Hrc, Hc in Hst, Hcnt.
  split; [exact Ha | split; [exact Hcap | split; [exact Hle |
    split; [exact Hst | exact Hcnt]]]].
Defined.

(* ========================================================================== *)
(** * Order of the time stamps                                                 *)
(* ========================================================================== *)

(** X7. With a clock that never runs backwards, the times in the buffer are
    in call order: after a successful initialisation followed by appends
    that fit the capacity, [start_time] is at most the time of every entry
    and the time of an entry is at most that of every later one. *)
Theorem timestamps_ordered
  (stage_id buf size : Z) (st : machine) (names : list string) :
  u32 size -> monotone_clock (clock st) ->
  fst (boot_record_init stage_id buf size st) = BOOT_RECORD_SUCCESS ->
  Z.of_nat (List.length names) <= (size - 16) / 32 ->
  forall i j, (i <= j < List.length names)%nat ->
    start_time (run (log_calls names)
                  (snd (boot_record_init stage_id buf size st)))
    <= entry_time (run (log_calls names)
                     (snd (boot_record_init stage_id buf size st)))
         (Z.of_nat i)
    /\ entry_time (run (log_calls names)
                     (snd (boot_record_init stage_id buf size st)))
         (Z.of_nat i)
       <= entry_time (run (log_calls names)
                        (snd (boot_record_init stage_id buf size st)))
            (Z.of_nat j).
Proof.
  intros Hs [Hrange Hmono] Hok Hfit i j Hij.
  destruct (init_cases stage_id buf size st Hs) as [Hbad | [Hb Hsz]].
  { rewrite (init_invalid stage_id buf size st Hbad) in Hok. discriminate. }
  rewrite (init_success stage_id buf size st Hb Hsz).
  cbn [snd]. set (st1 := mk_machine _ _ _ _).
  destruct (capacity_formula size Hsz) as [_ Hq].
  assert (active st1) as Ha by (split; assumption).
  assert (capacity st1 = (size - 16) / 32) as Hc by reflexivity.
  assert (u32 (capacity st1)) as Hcap by (rewrite Hc; unfold u32; lia).
  assert (record_count st1 = 0) as Hrc.
  { unfold record_count, stage_addr, offset_record_count. subst st1.
    cbn [gboot_records_config mem records]. apply fresh_record_count. }
  assert (start_time st1 = clock st (ticks st)) as Hstart.
  { unfold start_time, stage_addr, offset_start_time. subst st1.
    cbn [gboot_records_config mem records].
    rewrite fresh_start_time, clock_now_wrapped.
    unfold clock_now, wrap64. apply Z.mod_small, Hrange. }
  assert (record_count st1 + Z.of_nat (List.length names) <= capacity st1)
    as Hfit1 by lia.
  destruct (log_sequence names st1 Ha Hcap Hfit1)
    as [_ [Hcfg [_ [_ [_ [Hframe Hent]]]]]].
  set (st2 := run (log_calls names) st1) in *.
  assert (start_time st2 = clock st (ticks st)) as Hstart2.
  { rewrite <- Hstart. unfold start_time, stage_addr. rewrite Hcfg.
    apply load64_ext. intros x Hx. apply Hframe;
      unfold stage_addr, profile_addr, offset_start_time, offset_profiles,
        sizeof_boot_record_profile_t in *; lia. }
  assert (forall k, (k < List.length names)%nat ->
            entry_time st2 (Z.of_nat k) = clock st (S (ticks st) + k)%nat)
    as Htime.
  { intros k Hk.
    destruct (Hent k (nth k names ""%string)
                (nth_error_nth' names ""%string Hk)) as [_ Ht].
    rewrite Hrc, Z.add_0_l in Ht. rewrite Ht.
    unfold wrap64. apply Z.mod_small, Hrange. }
  rewrite Hstart2, !Htime by lia.
  split; apply Hmono; lia.
Qed.

Lemma timestamps_ordered_witness :
  let st := power_on blank capped_clock in
  let names := ["a"; "b"; "c"]%string in
  u32 1024 /\ monotone_clock (clock st) /\
  fst (boot_record_init 1 4096 1024 st) = BOOT_RECORD_SUCCESS /\
  Z.of_nat (List.length names) <= (1024 - 16) / 32 /\
  (0 <= 2 < List.length names)%nat /\
  start_time (run (log_calls names) (snd (boot_record_init 1 4096 1024 st)))
  <= entry_time (run (log_calls names)
                   (snd (boot_record_init 1 4096 1024 st))) (Z.of_nat 0).
Proof.
  intros st names.
  assert (u32 1024) as Hs by (unfold u32; lia).
  assert (monotone_clock (clock st)) as Hclk.
  { split.
    - intros n. unfold u64. cbn [clock st power_on].
      unfold capped_clock. change (2 ^ 64) with 18446744073709551616. lia.
    - intros n k Hnk. cbn [clock st power_on]. unfold capped_clock. lia. }
  assert (fst (boot_record_init 1 4096 1024 st) = BOOT_RECORD_SUCCESS)
    as Hok by reflexivity.
  assert (Z.of_nat (List.length names) <= (1024 - 16) / 32) as Hfit
    by (cbn; lia).
  assert (0 <= 2 < List.length names)%nat as Hij by (cbn; lia).
  split; [exact Hs | split; [exact Hclk | split; [exact Hok |
    split; [exact Hfit | split; [exact Hij |]]]]].
  apply (timestamps_ordered 1 4096 1024 st names Hs Hclk Hok Hfit
           0%nat 2%nat Hij).
Defined.

(* ========================================================================== *)
(** * Between two initialisations                                              *)
(* ========================================================================== *)




(** X10. A buffer that is no longer bound keeps its contents: from any state
    reached after power-on, a byte outside the bound buffer and outside
    every buffer passed to a later [boot_record_init] is not modified by
    any later sequence of calls. *)
Theorem unbound_memory_preserved
  (m : memory) (clk : nat -> Z) (before after : list call) (x : Z) :
  untouched (run before (power_on m clk)) x ->
  (forall stage_id buf size,
     In (Init stage_id buf size) after -> outside x buf size) ->
  mem (run after (run before (power_on m clk))) x =
  mem (run before (power_on m clk)) x.
Proof.
  intros Hun Hout. apply run_untouched.
  - exact Hout.
  - apply run_inv, power_on_inv.
  - apply run_layout, power_on_layout.
  - exact Hun.
Qed.

Lemma unbound_memory_preserved_witness :
  let before := [Init 1 4096 80; Log (Some "a"%string); Init 2 8192 80] in
  let after := [Log (Some "b"%string); Init 3 8192 48;
                Log (Some "c"%string)] in
  let st := run before (power_on blank stopped_clock) in
  untouched st 4112 /\
  (forall stage_id buf size,
     In (Init stage_id buf size) after -> outside 4112 buf size) /\
  mem (run after st) 4112 = 97.
Proof.
  intros before after st.
  assert (untouched st 4112) as Hun
    by (intros _; left; vm_compute; reflexivity).
  assert (forall stage_id buf size,
            In (Init stage_id buf size) after -> outside 4112 buf size)
    as Hout.
  { intros stage_id buf size [H | [H | [H | []]]];
      try discriminate H; injection H as <- <- <-; unfold outside; lia. }
  split; [exact Hun | split; [exact Hout |]].
  unfold st.
  rewrite (unbound_memory_preserved blank stopped_clock before after 4112
             Hun Hout).
  reflexivity.
Defined.
